(** * treewalker: a shallow embedding of [src/treewalker/__init__.py]

    The module walks a parsed JSON-like tree with cursors ("walkers").
    Walkers are Python objects: they are mutated in place ([default_to],
    [set_custom_context], the [referenced_keys] of an [ObjectWalker]) and
    they refer to their parents.  The embedding therefore keeps an explicit
    store of walker objects addressed by references, and every method is a
    computation over that store which either returns or raises. *)

From Stdlib Require Import ZArith Ascii.
From Stdlib Require Import Floats.SpecFloat.
From stdpp Require Import base option list strings gmap pretty sorting.

Set Warnings "-register-all".

Local Open Scope Z_scope.

(** ** Tree values

    A [str] is a [string], one [ascii] for each of its characters (those up
    to U+00FF); strings compare by their characters in order. *)

(** A Python [float] is an IEEE-754 binary64 number. *)
Definition float := spec_float.
Definition float_prec : Z := 53.
Definition float_emax : Z := 1024.

(** The values a tree node can hold.  [MissingValue] stands for an instance
    of the marker class of the same name; the instances carry no data, so
    they are all represented by the one constructor. *)
Inductive value : Type :=
| VNone
| VBool (b : bool)
| VInt (n : Z)
| VFloat (f : float)
| VStr (s : string)
| VList (items : list value)
| VDict (attrs : list (string * value))
| MissingValue.

(** The classes the module passes to [isinstance]. *)
Inductive pytype : Type :=
| Tstr | Tint | Tfloat | Tbool | Tlist | Tdict | TMissingValue.

(** [isinstance(v, t)].  In Python [bool] is a subclass of [int]. *)
Definition isinstance (v : value) (t : pytype) : bool :=
  match t, v with
  | Tstr, VStr _ => true
  | Tint, VInt _ => true
  | Tint, VBool _ => true
  | Tfloat, VFloat _ => true
  | Tbool, VBool _ => true
  | Tlist, VList _ => true
  | Tdict, VDict _ => true
  | TMissingValue, MissingValue => true
  | _, _ => false
  end.

(** [v is None]. *)
Definition is_None (v : value) : bool :=
  match v with VNone => true | _ => false end.

(** The integer a value of class [int] (or [bool]) stands for. *)
Definition int_value (v : value) : Z :=
  match v with
  | VInt n => n
  | VBool true => 1
  | _ => 0
  end.

(** ** Dictionaries

    A [dict] keeps its items in insertion order; [d.items()] is the list
    itself. *)

Fixpoint dict_get (d : list (string * value)) (key : string) : option value :=
  match d with
  | [] => None
  | (k, v) :: d' => if decide (k = key) then Some v else dict_get d' key
  end.

(** [key in d]. *)
Definition dict_contains (d : list (string * value)) (key : string) : bool :=
  bool_decide (is_Some (dict_get d key)).

(** ** Walker objects and the store *)

(** A reference to a walker object is its position in the store. *)
Abbreviation loc := nat (only parsing).

(** The four classes of walkers, with the attributes each subclass adds. *)
Inductive walker_class : Type :=
| Walker
| WalkerInArray (index : Z)
| WalkerInObject (key : string)
| ObjectWalker (referenced_keys : gset string).

Record walker : Type := mk_walker {
  class_of : walker_class;
  obj : value;
  parent : option loc;
  custom_context : string
}.

Abbreviation heap := (list walker) (only parsing).

(** ** Exceptions and computations *)

Inductive exn : Type :=
| WalkerError (w : loc) (msg : string)
| TypeError
| ValueError
| OverflowError
| KeyError
| AssertionError.

(** The outcome of a call: a returned value, a raised exception, or
    [Stuck] for what no use of the module gets to: a reference that
    denotes no object of the store, a method of [ObjectWalker] called on
    another object. *)
Inductive outcome (A : Type) : Type :=
| Return (a : A)
| Raise (e : exn)
| Stuck.
Arguments Return {A} a.
Arguments Raise {A} e.
Arguments Stuck {A}.

Definition M (A : Type) : Type := heap -> heap * outcome A.

Definition ret {A} (a : A) : M A := fun h => (h, Return a).

Definition raise {A} (e : exn) : M A := fun h => (h, Raise e).

Definition stuck {A} : M A := fun h => (h, Stuck).

(** A call that does not touch the store. *)
Definition lift {A} (o : outcome A) : M A := fun h => (h, o).

Definition bind {A B} (m : M A) (k : A -> M B) : M B :=
  fun h =>
    match m h with
    | (h', Return a) => k a h'
    | (h', Raise e) => (h', Raise e)
    | (h', Stuck) => (h', Stuck)
    end.

#[global] Instance M_ret : MRet M := @ret.
#[global] Instance M_bind : MBind M := fun A B k m => bind m k.

(** [try: m  except cls: handler]: [handles e] tells whether [e] is an
    instance of the class named in the [except] clause. *)
Definition try_except {A} (m : M A) (handles : exn -> bool) (handler : M A) : M A :=
  fun h =>
    match m h with
    | (h', Raise e) => if handles e then handler h' else (h', Raise e)
    | r => r
    end.

(** [d[key]]. *)
Definition dict_getitem (d : list (string * value)) (key : string) : M value :=
  match dict_get d key with
  | Some v => ret v
  | None => raise KeyError
  end.

(** Reading, writing and allocating walker objects. *)
Definition deref (self : loc) : M walker :=
  fun h => match h !! self with
           | Some w => (h, Return w)
           | None => stuck h
           end.

Definition store (self : loc) (w : walker) : M unit :=
  fun h => (<[self := w]> h, Return tt).

Definition alloc (w : walker) : M loc :=
  fun h => (h ++ [w], Return (List.length h)).

Definition set_obj (w : walker) (v : value) : walker :=
  mk_walker (class_of w) v (parent w) (custom_context w).

Definition set_ctx (w : walker) (ctx : string) : walker :=
  mk_walker (class_of w) (obj w) (parent w) ctx.

Definition set_class (w : walker) (c : walker_class) : walker :=
  mk_walker c (obj w) (parent w) (custom_context w).

(** ** class Walker *)

(** [Walker(root)]: the class attributes [parent = None] and
    [custom_context = ""] are what a fresh instance shows. *)
Definition Walker_init (root : value) : M loc :=
  alloc (mk_walker Walker root None "").

Definition raise_error {A} (self : loc) (msg : string) : M A :=
  raise (WalkerError self msg).

Definition is_null (self : loc) : M bool :=
  w ← deref self; ret (is_None (obj w)).

Definition is_str (self : loc) : M bool :=
  w ← deref self; ret (isinstance (obj w) Tstr).

Definition is_int (self : loc) : M bool :=
  w ← deref self; ret (isinstance (obj w) Tint).

Definition is_number (self : loc) : M bool :=
  w ← deref self;
  ret (isinstance (obj w) Tint || isinstance (obj w) Tfloat).

Definition is_bool (self : loc) : M bool :=
  w ← deref self; ret (isinstance (obj w) Tbool).

Definition is_missing (self : loc) : M bool :=
  w ← deref self; ret (isinstance (obj w) TMissingValue).

Definition is_present (self : loc) : M bool :=
  w ← deref self; ret (negb (isinstance (obj w) TMissingValue)).

Definition is_array (self : loc) : M bool :=
  w ← deref self; ret (isinstance (obj w) Tlist).

Definition is_object (self : loc) : M bool :=
  w ← deref self; ret (isinstance (obj w) Tdict).

Definition expect_present (self : loc) : M loc :=
  missing ← is_missing self;
  if missing : bool then raise_error self "Mandatory key is missing"
  else ret self.

(** An optional argument [default=None]: the caller either leaves it out
    or passes a value; the callee sees [None] in the first case. *)
Definition default_arg (default : option value) : value :=
  match default with
  | None => VNone
  | Some v => v
  end.

Definition as_type (self : loc) (typ : pytype) (msg : string)
    (default : option value) : M value :=
  let default := default_arg default in
  w ← deref self;
  if isinstance (obj w) typ then ret (obj w)
  else
    missing ← is_missing self;
    if missing : bool then
      if is_None default then raise_error self "Mandatory key is missing"
      else ret default
    else raise_error self msg.

Definition as_optional_type (self : loc) (typ : pytype) (msg : string) : M value :=
  w ← deref self;
  if isinstance (obj w) typ then ret (obj w)
  else
    missing ← is_missing self;
    if missing : bool then ret VNone
    else raise_error self msg.

Definition as_str (self : loc) (default : option value) : M value :=
  as_type self Tstr "Expected a string" default.

Definition as_int (self : loc) (default : option value) : M value :=
  as_type self Tint "Expected an integer" default.

(** [float(n)] for an [int]: the nearest binary64 number, ties to even;
    [OverflowError] when that is out of range. *)
Definition float_of_int (n : Z) : outcome value :=
  match binary_normalize float_prec float_emax n 0 false with
  | S754_infinity _ => Raise OverflowError
  | f => Return (VFloat f)
  end.

Definition as_float (self : loc) (default : option value) : M value :=
  w ← deref self;
  if isinstance (obj w) Tint then lift (float_of_int (int_value (obj w)))
  else as_type self Tfloat "Expected a number" default.

Definition as_bool (self : loc) (default : option value) : M value :=
  as_type self Tbool "Expected a Boolean value" default.

Definition as_optional_str (self : loc) : M value :=
  as_optional_type self Tstr "Expected a string".

Definition as_optional_int (self : loc) : M value :=
  as_optional_type self Tint "Expected an integer".

Definition as_optional_float (self : loc) : M value :=
  w ← deref self;
  if isinstance (obj w) Tint then lift (float_of_int (int_value (obj w)))
  else as_optional_type self Tfloat "Expected a number".

Definition as_optional_bool (self : loc) : M value :=
  as_optional_type self Tbool "Expected a Boolean value".

Definition default_to (self : loc) (default : value) : M loc :=
  missing ← is_missing self;
  (if missing : bool then
     w ← deref self; store self (set_obj w default)
   else ret tt);;
  ret self.

Definition set_custom_context (self : loc) (ctx : string) : M unit :=
  w ← deref self; store self (set_ctx w ctx).

(** ** class WalkerInArray, class WalkerInObject *)

Definition WalkerInArray_init (o : value) (parent : loc) (index : Z) : M loc :=
  alloc (mk_walker (WalkerInArray index) o (Some parent) "").

Definition WalkerInObject_init (o : value) (parent : loc) (key : string) : M loc :=
  alloc (mk_walker (WalkerInObject key) o (Some parent) "").

Definition unexpected {A} (self : loc) : M A :=
  raise_error self "Unexpected key".

(** ** The generators of class Walker

    A generator runs as far as the loop over it asks: [array_values self
    body] is [for w in self.array_values(): body w], and likewise for the
    other two.  The type check is made when the loop asks for the first
    walker, and each walker is made when the loop asks for it. *)

Fixpoint enumerate (self : loc) (i : Z) (ary : list value)
    (body : loc -> M unit) : M unit :=
  match ary with
  | [] => ret tt
  | o :: rest =>
      w ← WalkerInArray_init o self i;
      body w;;
      enumerate self (i + 1) rest body
  end.

Fixpoint items (self : loc) (dct : list (string * value))
    (body : string -> loc -> M unit) : M unit :=
  match dct with
  | [] => ret tt
  | (key, o) :: rest =>
      w ← WalkerInObject_init o self key;
      body key w;;
      items self rest body
  end.

Definition array_values (self : loc) (body : loc -> M unit) : M unit :=
  ary ← as_type self Tlist "Expected an array" None;
  match ary with
  | VList elements => enumerate self 0 elements body
  | _ => stuck
  end.

Definition object_items (self : loc) (body : string -> loc -> M unit) : M unit :=
  dct ← as_type self Tdict "Expected an object" None;
  match dct with
  | VDict attrs => items self attrs body
  | _ => stuck
  end.

Definition object_values (self : loc) (body : loc -> M unit) : M unit :=
  object_items self (fun _ w => body w).

(** ** class ObjectWalker *)

Definition ObjectWalker_init (o : value) (parent : loc) : M loc :=
  if isinstance o Tdict then
    alloc (mk_walker (ObjectWalker ∅) o (Some parent) "")
  else raise AssertionError.

Definition enter_object (self : loc) : M loc :=
  dct ← as_type self Tdict "Expected an object" None;
  ObjectWalker_init dct self.

(** The methods below exist on [ObjectWalker] only, and its [obj] is a
    [dict] by the assertion in [__init__]: [self] is read as such an
    object. *)
Definition deref_object (self : loc) : M (walker * gset string * list (string * value)) :=
  w ← deref self;
  match class_of w, obj w with
  | ObjectWalker referenced_keys, VDict attrs => ret (w, referenced_keys, attrs)
  | _, _ => stuck
  end.

Definition __enter__ (self : loc) : M loc := ret self.

Definition __contains__ (self : loc) (key : string) : M bool :=
  '(_, _, attrs) ← deref_object self;
  ret (dict_contains attrs key).

Definition __getitem__ (self : loc) (key : string) : M loc :=
  '(w, referenced_keys, attrs) ← deref_object self;
  if dict_contains attrs key then
    store self (set_class w (ObjectWalker ({[key]} ∪ referenced_keys)));;
    v ← dict_getitem attrs key;
    WalkerInObject_init v self key
  else WalkerInObject_init MissingValue self key.

Fixpoint unreferenced (self : loc) (referenced_keys : gset string)
    (items : list (string * value)) : M unit :=
  match items with
  | [] => ret tt
  | (key, val) :: rest =>
      (if decide (key ∈ referenced_keys) then ret tt
       else w ← WalkerInObject_init val self key; unexpected w);;
      unreferenced self referenced_keys rest
  end.

Definition assert_no_other_keys (self : loc) : M unit :=
  '(_, referenced_keys, attrs) ← deref_object self;
  unreferenced self referenced_keys attrs.

(** [__exit__(exc_type, exc_value, traceback)]: [exc] is the exception that
    leaves the body of the [with] statement, if any.  The method returns
    [None]. *)
Definition __exit__ (self : loc) (exc : option exn) : M unit :=
  match exc with
  | None => assert_no_other_keys self
  | Some _ => ret tt
  end.

(** [with mgr as w: body]: [__exit__] returns [None], which is false, so an
    exception of the body is raised again after it. *)
Definition leave {A} (mgr : loc) (body : M A) : M A :=
  fun h =>
    match body h with
    | (h1, Return a) => bind (__exit__ mgr None) (fun _ => ret a) h1
    | (h1, Raise e) => bind (__exit__ mgr (Some e)) (fun _ => raise e) h1
    | (h1, Stuck) => (h1, Stuck)
    end.

Definition with_ {A} (mgr : loc) (body : loc -> M A) : M A :=
  w ← __enter__ mgr;
  leave mgr (body w).

(** ** Enumerations and [as_enum] *)

(** An [Enum] subclass whose members have string values: the members as
    (name, value) pairs in definition order, and whether the class mixes in
    [str] ([class E(str, Enum)], [StrEnum]), in which case its members are
    strings themselves.  A later member with the value of an earlier one is
    an alias of it. *)
Record enum_class : Type := mk_enum {
  str_mixin : bool;
  members : list (string * string)
}.

Definition enum_member : Type := string * string.

Definition by_value (enum : enum_class) (s : string) : option enum_member :=
  find (fun m : enum_member => bool_decide (m.2 = s)) (members enum).

(** [enum(v)]: the member with value [v], or [ValueError]. *)
Definition enum_call (enum : enum_class) (v : value) : M enum_member :=
  match v with
  | VStr s =>
      match by_value enum s with
      | Some m => ret m
      | None => raise ValueError
      end
  | _ => raise ValueError
  end.

(** [enum.__members__.values()]: one entry per name, aliases included. *)
Definition members_values (enum : enum_class) : list enum_member :=
  omap (fun m : enum_member => by_value enum m.2) (members enum).

(** [sorted(ms)] on members of [enum].  Members that are strings compare as
    strings.  Members of a plain [Enum] have no order: the first comparison
    raises [TypeError], and a list of two or more needs one. *)
Definition sorted (enum : enum_class) (ms : list enum_member) : M (list enum_member) :=
  if str_mixin enum then
    ret (merge_sort (fun a b : enum_member => String.le a.2 b.2) ms)
  else if decide (2 <= List.length ms)%nat then raise TypeError
  else ret ms.

(** [sep.join(ms)] on members of [enum]: [TypeError] on an item that is
    not a string. *)
Definition join (enum : enum_class) (sep : string) (ms : list enum_member) : M string :=
  if str_mixin enum then ret (String.concat sep (snd <$> ms))
  else
    match ms with
    | [] => ret EmptyString
    | _ :: _ => raise TypeError
    end.

Definition is_ValueError (e : exn) : bool :=
  match e with ValueError => true | _ => false end.

(** The [except] clause of [as_enum]. *)
Definition enum_mismatch (self : loc) (enum : enum_class) : M enum_member :=
  ms ← sorted enum (members_values enum);
  text ← join enum "/" ms;
  raise_error self ("Must be one of " +:+ text).

(** The [default] of [as_enum] is a member, or [None]. *)
Definition as_enum (self : loc) (enum : enum_class)
    (default : option (option enum_member)) : M enum_member :=
  let default := default ≫= id in
  missing ← is_missing self;
  match missing, default with
  | true, Some d => ret d
  | _, _ =>
      try_except
        (s ← as_str self None; enum_call enum s)
        is_ValueError
        (enum_mismatch self enum)
  end.

(** ** Regular expressions

    The two patterns of the module, [\w+] and the group of a backslash or
    a double quote, are built from character classes; matching is by
    derivatives. *)

Inductive regex : Type :=
| Fail
| Eps
| Class (p : ascii -> bool)
| Seq (r1 r2 : regex)
| Alt (r1 r2 : regex)
| Star (r : regex).

Definition Plus (r : regex) : regex := Seq r (Star r).

Fixpoint nullable (r : regex) : bool :=
  match r with
  | Fail => false
  | Eps => true
  | Class _ => false
  | Seq r1 r2 => nullable r1 && nullable r2
  | Alt r1 r2 => nullable r1 || nullable r2
  | Star _ => true
  end.

Fixpoint deriv (c : ascii) (r : regex) : regex :=
  match r with
  | Fail => Fail
  | Eps => Fail
  | Class p => if p c then Eps else Fail
  | Seq r1 r2 =>
      if nullable r1 then Alt (Seq (deriv c r1) r2) (deriv c r2)
      else Seq (deriv c r1) r2
  | Alt r1 r2 => Alt (deriv c r1) (deriv c r2)
  | Star r1 => Seq (deriv c r1) (Star r1)
  end.

(** [re.fullmatch(r, s)] as a truth value. *)
Fixpoint fullmatch (r : regex) (s : string) : bool :=
  match s with
  | EmptyString => nullable r
  | String c s' => fullmatch (deriv c r) s'
  end.

(** [re.sub(r, repl, s)] for a pattern [r] that matches single characters
    only: every character that matches is replaced by [repl] of it. *)
Fixpoint sub (r : regex) (repl : ascii -> string) (s : string) : string :=
  match s with
  | EmptyString => EmptyString
  | String c s' =>
      (if fullmatch r (String c EmptyString) then repl c
       else String c EmptyString) +:+ sub r repl s'
  end.

Definition backslash : ascii := ascii_of_nat 92.
Definition dquote : ascii := ascii_of_nat 34.

Definition is_char (a c : ascii) : bool := bool_decide (a = c).

(** The pattern of [quoted_key], a group that is a backslash or a double
    quote, and its template [\\\1]: a backslash, then group 1. *)
Definition backslash_or_dquote : regex :=
  Alt (Class (is_char backslash)) (Class (is_char dquote)).

Definition backslash_group1 (c : ascii) : string :=
  String backslash (String c EmptyString).

(** [str.isalnum] on an ASCII character. *)
Definition ascii_isalnum (c : ascii) : bool :=
  let n := N_of_ascii c in
  ((48 <=? n) && (n <=? 57) || (65 <=? n) && (n <=? 90)
   || (97 <=? n) && (n <=? 122))%N.

(** [str.isalnum] on the characters U+0080 to U+00FF, after the Unicode
    database: the letters, and the superscript digits and fractions. *)
Definition latin1_isalnum (c : ascii) : bool :=
  let n := N_of_ascii c in
  ((n =? 170) || (n =? 178) || (n =? 179) || (n =? 181) || (n =? 185)
   || (n =? 186) || (188 <=? n) && (n <=? 190)
   || (192 <=? n) && (n <=? 214) || (216 <=? n) && (n <=? 246)
   || (248 <=? n) && (n <=? 255))%N.

(** ** Path fragments and the text of an error *)

Section Rendering.

(** Which characters outside ASCII are alphanumeric is the Unicode
    database's business, not the module's. *)
Variable unicode_isalnum : ascii -> bool.

(** The class [\w] of a [str] pattern: alphanumeric, or the underscore. *)
Definition is_word (c : ascii) : bool :=
  if (N_of_ascii c <? 128)%N then ascii_isalnum c || is_char "_" c
  else unicode_isalnum c.

Definition word_plus : regex := Plus (Class is_word).

Definition Walker_context : string := "root".

Definition WalkerInArray_context (index : Z) : string :=
  "[" +:+ pretty index +:+ "]".

Definition WalkerInObject_context (key : string) : string :=
  if fullmatch word_plus key then "." +:+ key
  else
    let quoted_key := sub backslash_or_dquote backslash_group1 key in
    "." +:+ String dquote (quoted_key +:+ String dquote EmptyString).

Definition ObjectWalker_context : string := EmptyString.

(** [w.context()], by the class of [w]. *)
Definition context (w : walker) : string :=
  match class_of w with
  | Walker => Walker_context
  | WalkerInArray index => WalkerInArray_context index
  | WalkerInObject key => WalkerInObject_context key
  | ObjectWalker _ => ObjectWalker_context
  end.

(** The loop of [WalkerError.__str__]: [fuel] bounds the number of walkers
    visited, [None] is a loop that has not ended within it (or a reference
    to no object). *)
Fixpoint walk_up (fuel : nat) (h : heap) (w : option loc)
    (contexts : list string) : option (list string) :=
  match w with
  | None => Some contexts
  | Some l =>
      match fuel with
      | O => None
      | S fuel' =>
          wo ← h !! l;
          walk_up fuel' h (parent wo) (contexts ++ [context wo; custom_context wo])
      end
  end.

Definition WalkerError_str (fuel : nat) (h : heap) (walker : loc) (msg : string)
    : option string :=
  contexts ← walk_up fuel h (Some walker) [];
  Some (String.concat EmptyString (reverse contexts) +:+ ": " +:+ msg).

(** [str(e)] in store [h]: a walker refers to walkers made before it, so
    as many steps as the store has objects reach the root. *)
Definition __str__ (h : heap) (e : exn) : option string :=
  match e with
  | WalkerError walker msg => WalkerError_str (List.length h) h walker msg
  | _ => None
  end.

End Rendering.

(** ** Invariants of the store *)

(** Every walker refers to a parent made before it: the parent is an
    argument of the constructor, and no method sets [parent] afterwards. *)
Definition wf_walker (l : loc) (w : walker) : Prop :=
  match parent w with
  | None => True
  | Some p => (p < l)%nat
  end.

Definition wf_heap (h : heap) : Prop :=
  ∀ l w, h !! l = Some w → wf_walker l w.

(** The walkers from [l] up to the root. *)
Inductive chain (h : heap) : option loc → list walker → Prop :=
| chain_root : chain h None []
| chain_step l w ws :
    h !! l = Some w → chain h (parent w) ws → chain h (Some l) (w :: ws).

(** ** The spec's reading of the rendering *)

Section Reading.

Variable unicode_isalnum : ascii -> bool.

(** The path as the specification words it: per walker, the fragment and
    then the annotation; the walkers from the root to the leaf.  [ws] lists
    them from the leaf up, as the loop meets them. *)
Definition spec_path (ws : list walker) : string :=
  String.concat EmptyString
    ((fun w => context unicode_isalnum w +:+ custom_context w) <$> reverse ws).

Definition spec_rendering (ws : list walker) (msg : string) : string :=
  spec_path ws +:+ ": " +:+ msg.

(** The path the code builds: per walker, the annotation and then the
    fragment. *)
Definition code_path (ws : list walker) : string :=
  String.concat EmptyString
    ((fun w => custom_context w +:+ context unicode_isalnum w) <$> reverse ws).

Definition code_rendering (ws : list walker) (msg : string) : string :=
  code_path ws +:+ ": " +:+ msg.

End Reading.

(** ** The contracts in the words of the specification *)

(** The generic typed-extraction contract of a walker [self] that holds
    [v]: the value as it is when it matches; the default, if one was
    supplied, when the walker is missing; an error otherwise.  [None] is
    a call without a default. *)
Definition extraction_contract (self : loc) (v : value) (typ : pytype)
    (msg : string) (default : option value) : outcome value :=
  if isinstance v typ then Return v
  else if isinstance v TMissingValue then
    match default with
    | Some d => Return d
    | None => Raise (WalkerError self "Mandatory key is missing")
    end
  else Raise (WalkerError self msg).

(** The optional-extraction contract. *)
Definition optional_contract (self : loc) (v : value) (typ : pytype)
    (msg : string) : outcome value :=
  if isinstance v typ then Return v
  else if isinstance v TMissingValue then Return VNone
  else Raise (WalkerError self msg).

(** What the code takes for a supplied default: one that is not [None]. *)
Definition not_None (default : option value) : option value :=
  match default with
  | Some VNone => None
  | _ => default
  end.

(** The first attribute, in the order of the [dict], whose key has not been
    referenced. *)
Definition first_unreferenced (referenced_keys : gset string)
    (attrs : list (string * value)) : option (string * value) :=
  find (fun kv : string * value => bool_decide (kv.1 ∉ referenced_keys)) attrs.

(** Binary64 numbers 1.0 and 0.0. *)
Definition float_one : float := S754_finite false 4503599627370496 (-52).
Definition float_zero : float := S754_zero false.

(** The float [f] is the integer [n], exactly. *)
Definition represents (f : float) (n : Z) : Prop :=
  match f with
  | S754_zero _ => n = 0
  | S754_finite s m e =>
      e <= 0 ∧ (if s then Z.neg m else Z.pos m) = n * 2 ^ (- e)
  | _ => False
  end.

(** A key of one or more word characters. *)
Definition word_key (unicode_isalnum : ascii -> bool) (key : string) : Prop :=
  key ≠ EmptyString ∧
  ∀ c, c ∈ String.list_ascii_of_string key → is_word unicode_isalnum c = true.

(** A key with every backslash and double quote preceded by a backslash. *)
Fixpoint escaped (key : string) : string :=
  match key with
  | EmptyString => EmptyString
  | String c key' =>
      if decide (c = backslash ∨ c = dquote)
      then String backslash (String c (escaped key'))
      else String c (escaped key')
  end.

(** The message of the specification for a value that is no member: the
    values, sorted as strings and joined by a slash. *)
Definition must_be_one_of (enum : enum_class) : string :=
  "Must be one of "
  +:+ String.concat "/" (merge_sort String.le (snd <$> members enum)).

(** ** Programs

    [class Color(Enum)] with two members, and the same with [str] mixed
    in. *)
Definition Color : enum_class :=
  mk_enum false [("RED", "red"); ("GREEN", "green")].

Definition StrColor : enum_class :=
  mk_enum true [("RED", "red"); ("GREEN", "green")].

(** An attribute of the root, annotated, and read as the wrong type. *)
Definition annotated_attribute : M value :=
  root ← Walker_init (VDict [("a", VInt 1)]);
  w ← enter_object root;
  a ← __getitem__ w "a";
  set_custom_context a "@";;
  as_str a None.

(** Four tests of [tests/test_treewalker.py]. *)
Definition test_array_context : M unit :=
  w ← Walker_init (VList [VInt 1; VNone; VInt 3]);
  array_values w (fun val => as_int val None;; ret tt).

Definition test_complex_context : M unit :=
  w ← Walker_init
        (VDict [("one", VInt 1);
                ("three", VList [VInt 5; VInt 6; VStr "huiiii!"; VInt 7]);
                ("eleven", VInt 11)]);
  object_items w (fun key val =>
    array ← is_array val;
    if array : bool then array_values val (fun wal => as_int wal None;; ret tt)
    else as_int val None;; ret tt).

Definition one_two_three : value :=
  VDict [("one", VInt 1); ("two", VStr "dva"); ("three", VBool false)].

Definition test_object_walker_other : M value :=
  root ← Walker_init one_two_three;
  mgr ← enter_object root;
  with_ mgr (fun w =>
    one ← __getitem__ w "one"; as_int one (Some (VInt 4));;
    two ← __getitem__ w "two"; as_str two None).

Definition test_object_walker_missing : M value :=
  root ← Walker_init one_two_three;
  mgr ← enter_object root;
  with_ mgr (fun w => five ← __getitem__ w "five"; as_int five None).

(** The text of the error a run ends with. *)
Definition raised {A} (unicode_isalnum : ascii -> bool)
    (run : heap * outcome A) : option string :=
  match run with
  | (h, Raise e) => __str__ unicode_isalnum h e
  | _ => None
  end.

(** * Properties *)

(** Running a computation: unfold the combinators, look walkers up. *)
Ltac unfold_M :=
  unfold as_str, as_int, as_bool, as_type, as_optional_type, is_missing,
    is_int, is_number, is_bool, is_str, raise_error;
  unfold mbind, M_bind, bind, mret, M_ret, ret, raise, deref, stuck.

(** ** Typed extraction *)

Lemma as_type_run h self w typ msg default :
  h !! self = Some w →
  as_type self typ msg default h
  = (h, extraction_contract self (obj w) typ msg (not_None default)).
Proof.
  intros Hw. unfold extraction_contract. unfold_M. rewrite Hw.
  destruct (isinstance (obj w) typ); [done|].
  rewrite Hw.
  destruct (isinstance (obj w) TMissingValue); [|done].
  by destruct default as [[]|].
Qed.

Lemma as_optional_type_run h self w typ msg :
  h !! self = Some w →
  as_optional_type self typ msg h
  = (h, optional_contract self (obj w) typ msg).
Proof.
  intros Hw. unfold optional_contract. unfold_M. rewrite Hw.
  destruct (isinstance (obj w) typ); [done|].
  rewrite Hw.
  by destruct (isinstance (obj w) TMissingValue).
Qed.

Lemma as_float_run h self w default :
  h !! self = Some w →
  as_float self default h
  = (h, if isinstance (obj w) Tint then float_of_int (int_value (obj w))
        else extraction_contract self (obj w) Tfloat "Expected a number"
               (not_None default)).
Proof.
  intros Hw. unfold as_float, mbind, M_bind, bind, deref. rewrite Hw.
  destruct (isinstance (obj w) Tint); [done|]. by apply as_type_run.
Qed.

Lemma as_optional_float_run h self w :
  h !! self = Some w →
  as_optional_float self h
  = (h, if isinstance (obj w) Tint then float_of_int (int_value (obj w))
        else optional_contract self (obj w) Tfloat "Expected a number").
Proof.
  intros Hw. unfold as_optional_float, mbind, M_bind, bind, deref. rewrite Hw.
  destruct (isinstance (obj w) Tint); [done|]. by apply as_optional_type_run.
Qed.

(** C1, as stated, fails: on a missing walker, [None] supplied as the
    default is not returned. *)
Lemma as_type_default_None_raises :
  let h := [mk_walker Walker MissingValue None ""] in
  as_str 0%nat (Some VNone) h
  = (h, Raise (WalkerError 0%nat "Mandatory key is missing"))
  ∧ as_str 0%nat (Some VNone) h
    ≠ (h, extraction_contract 0%nat MissingValue Tstr "Expected a string" (Some VNone)).
Proof. split; [reflexivity | discriminate]. Qed.

(** C1, amended: [as_type], and with it [as_str], [as_int], [as_bool] and
    [as_float] off its integer branch, return the held value unchanged when
    it matches the target type; on a missing walker they return the
    supplied default if one other than [None] was supplied and otherwise
    raise the error "Mandatory key is missing"; on a present value of another type
    they raise the error with the mismatch message of the operation. *)
Theorem typed_extraction h self w default :
  h !! self = Some w →
  (∀ typ msg,
     as_type self typ msg default h
     = (h, extraction_contract self (obj w) typ msg (not_None default)))
  ∧ as_str self default h
    = (h, extraction_contract self (obj w) Tstr "Expected a string" (not_None default))
  ∧ as_int self default h
    = (h, extraction_contract self (obj w) Tint "Expected an integer" (not_None default))
  ∧ as_bool self default h
    = (h, extraction_contract self (obj w) Tbool "Expected a Boolean value" (not_None default))
  ∧ (isinstance (obj w) Tint = false →
     as_float self default h
     = (h, extraction_contract self (obj w) Tfloat "Expected a number" (not_None default))).
Proof.
  intros Hw. repeat split; try (intros; by apply as_type_run).
  intros Hint. by rewrite (as_float_run h self w), Hint.
Qed.

Lemma typed_extraction_witness :
  let h := [mk_walker Walker MissingValue None ""] in
  as_int 0%nat (Some (VInt 4)) h = (h, Return (VInt 4)).
Proof.
  intros h.
  exact (proj1 (proj2 (proj2
    (typed_extraction h 0%nat (mk_walker Walker MissingValue None "")
       (Some (VInt 4)) eq_refl)))).
Defined.

Lemma as_enum_run h self w enum default :
  h !! self = Some w →
  as_enum self enum default h
  = match obj w, default ≫= id with
    | MissingValue, Some d => (h, Return d)
    | MissingValue, None =>
        (h, Raise (WalkerError self "Mandatory key is missing"))
    | VStr s, _ =>
        match by_value enum s with
        | Some m => (h, Return m)
        | None => enum_mismatch self enum h
        end
    | _, _ => (h, Raise (WalkerError self "Expected a string"))
    end.
Proof.
  intros Hw. unfold as_enum, is_missing, mbind, M_bind, bind, deref.
  rewrite Hw. unfold ret.
  assert (Hstr : as_str self None h
    = (h, extraction_contract self (obj w) Tstr "Expected a string" None))
    by (by apply as_type_run).
  assert (Htry : try_except
      (bind (as_str self None) (fun s => enum_call enum s)) is_ValueError
      (enum_mismatch self enum) h
    = match obj w with
      | MissingValue => (h, Raise (WalkerError self "Mandatory key is missing"))
      | VStr s =>
          match by_value enum s with
          | Some m => (h, Return m)
          | None => enum_mismatch self enum h
          end
      | _ => (h, Raise (WalkerError self "Expected a string"))
      end).
  { unfold try_except, bind. rewrite Hstr. unfold extraction_contract.
    destruct (obj w); try done. cbn.
    by destruct (by_value enum s). }
  destruct (obj w); cbn [isinstance]; try exact Htry.
  destruct default as [[d|]|]; [reflexivity | exact Htry | exact Htry].
Qed.

(** C6, as stated, fails: on a missing walker, [None] passed as the default
    is not returned; the call behaves as the one without a default. *)
Lemma default_None_not_returned :
  let h := [mk_walker Walker MissingValue None ""] in
  as_int 0%nat (Some VNone) h = as_int 0%nat None h
  ∧ as_int 0%nat (Some VNone) h ≠ (h, Return VNone).
Proof. split; [reflexivity | discriminate]. Qed.

(** C6, amended: for [as_str], [as_int], [as_float], [as_bool] and
    [as_enum], a call with [None] as the default is the call without a
    default, on every walker; on a missing walker both raise the error
    "Mandatory key is missing". *)
Theorem default_None_is_no_default h self enum :
  (as_str self (Some VNone) h = as_str self None h
   ∧ as_int self (Some VNone) h = as_int self None h
   ∧ as_float self (Some VNone) h = as_float self None h
   ∧ as_bool self (Some VNone) h = as_bool self None h
   ∧ as_enum self enum (Some None) h = as_enum self enum None h)
  ∧ (∀ w, h !! self = Some w → obj w = MissingValue →
       let missing := (h, Raise (WalkerError self "Mandatory key is missing")) in
       as_str self (Some VNone) h = missing
       ∧ as_int self (Some VNone) h = missing
       ∧ as_float self (Some VNone) h = missing
       ∧ as_bool self (Some VNone) h = missing
       ∧ as_enum self enum (Some None) h
         = (h, Raise (WalkerError self "Mandatory key is missing"))).
Proof.
  split; [by repeat split|].
  intros w Hw Hobj missing.
  unfold as_str, as_int, as_bool.
  rewrite !(as_type_run h self w), (as_float_run h self w) by done.
  unfold extraction_contract. rewrite Hobj. repeat split; try done.
  by rewrite (as_enum_run h self w) by done; rewrite Hobj.
Qed.

Lemma default_None_is_no_default_witness :
  let h := [mk_walker Walker MissingValue None ""] in
  as_bool 0%nat (Some VNone) h
  = (h, Raise (WalkerError 0%nat "Mandatory key is missing")).
Proof.
  intros h.
  exact (proj1 (proj2 (proj2 (proj2
    (proj2 (default_None_is_no_default h 0%nat (mk_enum true []))
       (mk_walker Walker MissingValue None "") eq_refl eq_refl))))).
Defined.

(** ** [float(n)]

    Rounding an integer to binary64: exact below 2^53, finite below
    2^1023. *)

Lemma digits2_pos_iter_xO (m k : positive) :
  digits2_pos (Pos.iter xO m k) = (digits2_pos m + k)%positive.
Proof.
  induction k as [|k IH] using Pos.peano_ind.
  - cbn. lia.
  - rewrite Pos.iter_succ. cbn [digits2_pos]. rewrite IH. lia.
Qed.

Lemma iter_xO_mul (m k : positive) :
  Z.pos (Pos.iter xO m k) = Z.pos m * 2 ^ Z.pos k.
Proof.
  induction k as [|k IH] using Pos.peano_ind.
  - cbn. lia.
  - rewrite Pos.iter_succ, Pos2Z.inj_xO, IH.
    rewrite Pos2Z.inj_succ, Z.pow_succ_r by lia. lia.
Qed.

Lemma digits2_upper (m : positive) : Z.pos m < 2 ^ Z.pos (digits2_pos m).
Proof.
  induction m as [m IH|m IH|]; cbn [digits2_pos];
    rewrite ?Pos2Z.inj_succ, ?Z.pow_succ_r by lia; [lia..|done].
Qed.

Lemma digits2_lower (m : positive) : 2 ^ (Z.pos (digits2_pos m) - 1) <= Z.pos m.
Proof.
  induction m as [m IH|m IH|]; cbn [digits2_pos]; [| |done];
    rewrite Pos2Z.inj_succ;
    replace (Z.succ (Z.pos (digits2_pos m)) - 1)
      with (Z.succ (Z.pos (digits2_pos m) - 1)) by lia;
    rewrite Z.pow_succ_r by lia; lia.
Qed.

Lemma digits2_le (m : positive) k :
  Z.pos m < 2 ^ k → 0 <= k → Z.pos (digits2_pos m) <= k.
Proof.
  intros Hm Hk. pose proof (digits2_lower m) as Hl.
  destruct (Z_le_gt_dec (Z.pos (digits2_pos m)) k) as [|Hgt]; [done|].
  assert (2 ^ k <= 2 ^ (Z.pos (digits2_pos m) - 1))
    by (apply Z.pow_le_mono_r; lia).
  lia.
Qed.

Lemma digits2_ge (m : positive) k :
  2 ^ (k - 1) <= Z.pos m → k <= Z.pos (digits2_pos m).
Proof.
  intros Hk. pose proof (digits2_upper m) as Hu.
  destruct (Z_le_gt_dec k (Z.pos (digits2_pos m))) as [|Hgt]; [done|].
  assert (2 ^ Z.pos (digits2_pos m) <= 2 ^ (k - 1))
    by (apply Z.pow_le_mono_r; lia).
  lia.
Qed.

Lemma iter_pos_iter {A} (f : A → A) (p : positive) (x : A) :
  SpecFloat.iter_pos f p x = Pos.iter f x p.
Proof.
  revert x. induction p as [p IH|p IH|]; intros x; cbn [SpecFloat.iter_pos Pos.iter].
  - rewrite !IH, <- Pos.iter_swap. f_equal. apply Pos.iter_swap.
  - by rewrite !IH.
  - done.
Qed.

Lemma shr_1_m r : 0 <= shr_m r → shr_m (shr_1 r) = shr_m r / 2.
Proof.
  destruct r as [m r s]. cbn [shr_m]. intros Hm.
  destruct m as [|[p|p|]|p]; cbn [shr_1 shr_m]; try lia; try reflexivity.
  - apply Z.div_unique with 1; lia.
  - apply Z.div_unique with 0; lia.
Qed.

Lemma shr_iter_m (p : positive) r :
  0 <= shr_m r → shr_m (SpecFloat.iter_pos shr_1 p r) = shr_m r / 2 ^ Z.pos p.
Proof.
  intros Hm. rewrite iter_pos_iter.
  induction p as [|p IH] using Pos.peano_ind.
  - cbn [Pos.iter]. by rewrite shr_1_m.
  - rewrite Pos.iter_succ, shr_1_m.
    + rewrite IH, Pos2Z.inj_succ, Z.pow_succ_r by lia.
      rewrite Z.div_div by lia. f_equal. lia.
    + rewrite IH. apply Z.div_pos; lia.
Qed.

Lemma round_nearest_even_bounds m l :
  m <= round_nearest_even m l <= m + 1.
Proof.
  unfold round_nearest_even.
  destruct l as [|[]]; try destruct (Z.even m); lia.
Qed.

Lemma binary_round_exact sx (m : positive) :
  Z.pos m < 2 ^ 53 →
  ∃ m' e, e <= 0 ∧ Z.pos m' = Z.pos m * 2 ^ (- e) ∧
    binary_round float_prec float_emax sx m 0 = S754_finite sx m' e.
Proof.
  intros Hm. unfold float_prec, float_emax.
  pose proof (digits2_le m 53 Hm ltac:(lia)) as Hd.
  unfold binary_round.
  set (d := digits2_pos m) in *.
  assert (Hfexp : fexp 53 1024 (Z.pos d + 0) = Z.pos d - 53)
    by (unfold fexp, emin; lia).
  rewrite Hfexp. unfold shl_align.
  destruct (Z.pos d - 53 - 0) as [|p|p] eqn:Hsub; try lia.
  - exists m, 0. split; [lia|]. split; [cbn; lia|].
    unfold binary_round_aux, shr_fexp. cbn [Zdigits2 shr_record_of_loc].
    fold d. rewrite Hfexp. replace (Z.pos d - 53 - 0) with 0 by lia.
    cbn [shr shr_m loc_of_shr_record round_nearest_even Zdigits2].
    fold d. rewrite Hfexp. by replace (Z.pos d - 53 - 0) with 0 by lia.
  - exists (Pos.iter xO m p), (Z.pos d - 53). split; [lia|].
    split; [rewrite iter_xO_mul; do 2 f_equal; lia|].
    unfold binary_round_aux, shr_fexp. cbn [Zdigits2 shr_record_of_loc].
    rewrite digits2_pos_iter_xO. fold d.
    assert (Hfexp' : fexp 53 1024 (Z.pos (d + p) + (Z.pos d - 53)) = Z.pos d - 53)
      by (unfold fexp, emin; lia).
    rewrite Hfexp', Z.sub_diag.
    cbn [shr shr_m loc_of_shr_record round_nearest_even Zdigits2].
    rewrite digits2_pos_iter_xO. fold d. rewrite Hfexp', Z.sub_diag.
    cbn [shr shr_m].
    replace (Z.pos d - 53 <=? 1024 - 53) with true; [done|].
    symmetry. apply Z.leb_le. lia.
Qed.

Lemma binary_round_finite sx (m : positive) :
  Z.pos m < 2 ^ 1023 →
  ∃ m' e, binary_round float_prec float_emax sx m 0 = S754_finite sx m' e.
Proof.
  intros Hm.
  destruct (Z_lt_le_dec (Z.pos m) (2 ^ 53)) as [Hsmall|Hbig].
  { destruct (binary_round_exact sx m Hsmall) as (m' & e & _ & _ & ->). eauto. }
  unfold float_prec, float_emax.
  pose proof (digits2_le m 1023 Hm ltac:(lia)) as Hd.
  pose proof (digits2_ge m 54 Hbig) as Hd'.
  pose proof (digits2_upper m) as Hu. pose proof (digits2_lower m) as Hl.
  unfold binary_round.
  set (d := digits2_pos m) in *.
  assert (Hfexp : fexp 53 1024 (Z.pos d + 0) = Z.pos d - 53)
    by (unfold fexp, emin; lia).
  rewrite Hfexp. unfold shl_align.
  destruct (Z.pos d - 53 - 0) as [|p|p] eqn:Hsub; try lia.
  unfold binary_round_aux, shr_fexp. cbn [Zdigits2 shr_record_of_loc].
  fold d. rewrite Hfexp, Z.sub_0_r.
  replace (Z.pos d - 53) with (Z.pos p) by lia.
  cbn [shr].
  set (r1 := SpecFloat.iter_pos shr_1 p _).
  assert (Hr1 : shr_m r1 = Z.pos m / 2 ^ Z.pos p)
    by (subst r1; by rewrite shr_iter_m by (cbn; lia)).
  assert (Hpow : 2 ^ Z.pos d = 2 ^ 53 * 2 ^ Z.pos p)
    by (rewrite <- Z.pow_add_r by lia; f_equal; lia).
  assert (Hpow' : 2 ^ (Z.pos d - 1) = 2 ^ 52 * 2 ^ Z.pos p)
    by (rewrite <- Z.pow_add_r by lia; f_equal; lia).
  assert (H2p : 0 < 2 ^ Z.pos p) by (apply Z.pow_pos_nonneg; lia).
  assert (Hm1 : 2 ^ 52 <= shr_m r1 < 2 ^ 53).
  { rewrite Hr1. split.
    - apply Z.div_le_lower_bound; lia.
    - apply Z.div_lt_upper_bound; lia. }
  pose proof (round_nearest_even_bounds (shr_m r1) (loc_of_shr_record r1)) as Hr.
  set (m2 := round_nearest_even (shr_m r1) (loc_of_shr_record r1)) in *.
  destruct m2 as [|q|q] eqn:Hm2; try lia.
  cbn [Zdigits2].
  pose proof (digits2_ge q 53 ltac:(lia)) as Hq1.
  pose proof (digits2_le q 54 ltac:(lia) ltac:(lia)) as Hq2.
  pose proof (digits2_lower q) as Hq3.
  set (dq := digits2_pos q) in *.
  assert (Hfexp2 : fexp 53 1024 (Z.pos dq + (0 + Z.pos p)) = Z.pos dq + Z.pos p - 53)
    by (unfold fexp, emin; lia).
  rewrite Hfexp2.
  destruct (Z.eq_dec (Z.pos dq) 53) as [Heq|Hne].
  - replace (Z.pos dq + Z.pos p - 53 - (0 + Z.pos p)) with 0 by lia.
    cbn [shr shr_m].
    replace (0 + Z.pos p <=? 1024 - 53) with true; [eauto|].
    symmetry. apply Z.leb_le. lia.
  - replace (Z.pos dq + Z.pos p - 53 - (0 + Z.pos p)) with 1 by lia.
    cbn [shr SpecFloat.iter_pos].
    assert (Hq : Z.pos q = 2 ^ 53).
    { replace (Z.pos dq - 1) with 53 in Hq3 by lia. lia. }
    rewrite shr_1_m by (cbn; lia). cbn [shr_m]. rewrite Hq.
    change (2 ^ 53 / 2) with (Z.pos (2 ^ 52)).
    replace (0 + Z.pos p + 1 <=? 1024 - 53) with true; [eauto|].
    symmetry. apply Z.leb_le. lia.
Qed.

(** An integer below 2^1023 in magnitude has a float. *)
Lemma float_of_int_finite n :
  Z.abs n < 2 ^ 1023 → ∃ f, float_of_int n = Return (VFloat f).
Proof.
  intros Hn. unfold float_of_int, binary_normalize.
  destruct n as [|m|m].
  - eauto.
  - destruct (binary_round_finite false m) as (m' & e & ->); [lia | eauto].
  - destruct (binary_round_finite true m) as (m' & e & ->); [lia | eauto].
Qed.

(** An integer below 2^53 in magnitude is its float. *)
Lemma float_of_int_exact n :
  Z.abs n < 2 ^ 53 →
  ∃ f, float_of_int n = Return (VFloat f) ∧ represents f n.
Proof.
  intros Hn. unfold float_of_int, binary_normalize.
  destruct n as [|m|m].
  - by exists (S754_zero false).
  - destruct (binary_round_exact false m) as (m' & e & He & Hm' & ->); [lia|].
    exists (S754_finite false m' e). by split.
  - destruct (binary_round_exact true m) as (m' & e & He & Hm' & ->); [lia|].
    exists (S754_finite true m' e). split; [done|]. split; [done|]. lia.
Qed.

(** [float(n)] never fails with the error of the module. *)
Lemma float_of_int_cases n :
  (∃ f, float_of_int n = Return (VFloat f)) ∨ float_of_int n = Raise OverflowError.
Proof.
  unfold float_of_int.
  destruct (binary_normalize float_prec float_emax n 0 false); eauto.
Qed.

(** C8, as stated, fails: an integer beyond the range of a [float] makes
    [as_float] and [as_optional_float] raise [OverflowError]. *)
Lemma as_float_overflow :
  let h := [mk_walker Walker (VInt (2 ^ 1024)) None ""] in
  as_float 0%nat None h = (h, Raise OverflowError)
  ∧ as_optional_float 0%nat h = (h, Raise OverflowError).
Proof. split; vm_compute; reflexivity. Qed.

(** C8, amended: on a walker whose value is an integer, [as_float] and
    [as_optional_float] return that value widened to a float (the nearest
    binary64 number), whatever the default, and raise no error of the
    module; only the [OverflowError] of a widening that is out of the range
    of a float gets out, which takes an integer of magnitude 2^1023 or
    more, and an integer of magnitude below 2^53 is widened exactly.  On
    any other value they follow the generic, respectively the optional,
    extraction contract with the message "Expected a number". *)
Theorem as_float_widens h self w default :
  h !! self = Some w →
  (isinstance (obj w) Tint = true →
     let n := int_value (obj w) in
     as_float self default h = (h, float_of_int n)
     ∧ as_optional_float self h = (h, float_of_int n)
     ∧ ((∃ f, float_of_int n = Return (VFloat f))
        ∨ float_of_int n = Raise OverflowError)
     ∧ (Z.abs n < 2 ^ 1023 → ∃ f, float_of_int n = Return (VFloat f))
     ∧ (Z.abs n < 2 ^ 53 →
        ∃ f, float_of_int n = Return (VFloat f) ∧ represents f n))
  ∧ (isinstance (obj w) Tint = false →
     as_float self default h
     = (h, extraction_contract self (obj w) Tfloat "Expected a number" (not_None default))
     ∧ as_optional_float self h
       = (h, optional_contract self (obj w) Tfloat "Expected a number")).
Proof.
  intros Hw.
  rewrite (as_float_run h self w), (as_optional_float_run h self w) by done.
  split; intros ->; [|done].
  auto 6 using float_of_int_cases, float_of_int_finite, float_of_int_exact.
Qed.

Lemma as_float_widens_witness :
  let h := [mk_walker Walker (VInt 184) None ""; mk_walker Walker (VStr "x") None ""] in
  as_float 0%nat (Some (VInt 100)) h
  = (h, Return (VFloat (S754_finite false 6473924464345088 (-45))))
  ∧ as_float 1%nat (Some (VInt 100)) h
    = (h, Raise (WalkerError 1%nat "Expected a number")).
Proof.
  intros h. split.
  - exact (proj1 (proj1
      (as_float_widens h 0%nat (mk_walker Walker (VInt 184) None "")
         (Some (VInt 100)) eq_refl) eq_refl)).
  - exact (proj1 (proj2
      (as_float_widens h 1%nat (mk_walker Walker (VStr "x") None "")
         (Some (VInt 100)) eq_refl) eq_refl)).
Defined.

(** C10: a walker on a Boolean [b] passes for a walker on an integer:
    [is_int] and [is_number] are true, [as_int] returns [b] itself, and
    [as_float] returns 1.0 or 0.0; none of them raises. *)
Theorem bool_is_int h self w b default :
  h !! self = Some w →
  obj w = VBool b →
  is_int self h = (h, Return true)
  ∧ is_number self h = (h, Return true)
  ∧ as_int self default h = (h, Return (VBool b))
  ∧ as_float self default h
    = (h, Return (VFloat (if b then float_one else float_zero))).
Proof.
  intros Hw Hobj. repeat split.
  - unfold_M. by rewrite Hw, Hobj.
  - unfold_M. by rewrite Hw, Hobj.
  - unfold as_int. rewrite (as_type_run h self w) by done.
    by rewrite Hobj.
  - rewrite (as_float_run h self w) by done.
    rewrite Hobj. by destruct b; vm_compute.
Qed.

Lemma bool_is_int_witness :
  let h := [mk_walker Walker (VBool true) None ""] in
  as_int 0%nat None h = (h, Return (VBool true))
  ∧ as_float 0%nat None h = (h, Return (VFloat float_one)).
Proof.
  intros h.
  destruct (bool_is_int h 0%nat (mk_walker Walker (VBool true) None "")
              true None eq_refl eq_refl) as (_ & _ & Hint & Hfloat).
  exact (conj Hint Hfloat).
Defined.

(** ** [default_to] *)

Lemma default_to_present h self w x :
  h !! self = Some w →
  isinstance (obj w) TMissingValue = false →
  default_to self x h = (h, Return self).
Proof.
  intros Hw Hp. unfold default_to. unfold_M. by rewrite Hw, Hp.
Qed.

Lemma default_to_missing h self w x :
  h !! self = Some w →
  isinstance (obj w) TMissingValue = true →
  default_to self x h = (<[self := set_obj w x]> h, Return self).
Proof.
  intros Hw Hm. unfold default_to, store. unfold_M. by rewrite Hw, Hm, Hw.
Qed.

(** C9: on a walker that is not missing, [default_to x] leaves the walker
    (the whole store) as it is and returns the same walker; on a missing
    walker, [default_to x] done twice leaves the store that [default_to x]
    done once leaves, and returns the same walker. *)
Theorem default_to_idempotent h self w x :
  h !! self = Some w →
  (isinstance (obj w) TMissingValue = false →
     default_to self x h = (h, Return self))
  ∧ (isinstance (obj w) TMissingValue = true →
     (default_to self x;; default_to self x) h = default_to self x h
     ∧ default_to self x h = (<[self := set_obj w x]> h, Return self)).
Proof.
  intros Hw. split; intros Hm.
  - by eapply default_to_present.
  - rewrite (default_to_missing h self w) by done. split; [|done].
    unfold mbind, M_bind, bind.
    rewrite (default_to_missing h self w) by done. cbv beta iota.
    assert (Hlt : (self < List.length h)%nat) by by eapply lookup_lt_Some.
    assert (Hw' : <[self := set_obj w x]> h !! self = Some (set_obj w x))
      by by apply list_lookup_insert_eq.
    destruct (isinstance x TMissingValue) eqn:Hx.
    + rewrite (default_to_missing _ self (set_obj w x)) by done.
      by rewrite list_insert_insert_eq.
    + by rewrite (default_to_present _ self (set_obj w x)).
Qed.

Lemma default_to_idempotent_witness :
  let w := mk_walker (WalkerInObject "four") MissingValue (Some 0%nat) "" in
  let o := mk_walker (ObjectWalker ∅) (VDict []) None "" in
  (default_to 1%nat (VList []);; default_to 1%nat (VList [])) [o; w]
  = default_to 1%nat (VList []) [o; w]
  ∧ default_to 0%nat (VList []) [o; w] = ([o; w], Return 0%nat).
Proof.
  intros w o. split.
  - exact (proj1 (proj2 (default_to_idempotent [o; w] 1%nat w (VList []) eq_refl)
                   eq_refl)).
  - exact (proj1 (default_to_idempotent [o; w] 0%nat o (VList []) eq_refl)
             eq_refl).
Defined.

(** ** Strings *)

Lemma append_nil_r (s : string) : s +:+ EmptyString = s.
Proof.
  induction s as [|c s IH]; [done|].
  change (String c (s +:+ EmptyString) = String c s). by f_equal.
Qed.

Lemma append_assoc (s1 s2 s3 : string) : (s1 +:+ s2) +:+ s3 = s1 +:+ s2 +:+ s3.
Proof.
  induction s1 as [|c s1 IH]; [done|].
  change (String c ((s1 +:+ s2) +:+ s3) = String c (s1 +:+ s2 +:+ s3)).
  by f_equal.
Qed.

Lemma concat_cons (s : string) (l : list string) :
  String.concat EmptyString (s :: l) = s +:+ String.concat EmptyString l.
Proof.
  destruct l as [|s' l]; [|done].
  change (s = s +:+ EmptyString). by rewrite append_nil_r.
Qed.

Lemma concat_app (l1 l2 : list string) :
  String.concat EmptyString (l1 ++ l2)
  = String.concat EmptyString l1 +:+ String.concat EmptyString l2.
Proof.
  induction l1 as [|s l1 IH]; [done|].
  rewrite <- app_comm_cons, !concat_cons, IH. by rewrite append_assoc.
Qed.

(** ** The path of a walker *)

Lemma chain_length h o ws :
  wf_heap h → chain h o ws → ∀ l, o = Some l → (List.length ws <= S l)%nat.
Proof.
  intros Hwf. induction 1 as [|l w ws Hw Hch IH]; intros l' Heq; [done|].
  injection Heq as <-. specialize (Hwf l w Hw). unfold wf_walker in Hwf.
  destruct (parent w) as [p|].
  - specialize (IH p eq_refl). cbn. lia.
  - inversion Hch. cbn. lia.
Qed.

Lemma chain_exists h :
  wf_heap h → ∀ l w, h !! l = Some w → ∃ ws, chain h (Some l) (w :: ws).
Proof.
  intros Hwf l. induction l as [l IH] using lt_wf_ind. intros w Hw.
  pose proof (Hwf l w Hw) as Hp. unfold wf_walker in Hp.
  destruct (parent w) as [p|] eqn:Hpar.
  - assert (is_Some (h !! p)) as [wp Hwp].
    { apply lookup_lt_is_Some. apply lookup_lt_Some in Hw. lia. }
    destruct (IH p Hp wp Hwp) as [ws Hws].
    exists (wp :: ws). econstructor; [done|]. by rewrite Hpar.
  - exists []. econstructor; [done|]. rewrite Hpar. constructor.
Qed.

Lemma chain_functional h o ws1 :
  chain h o ws1 → ∀ ws2, chain h o ws2 → ws1 = ws2.
Proof.
  induction 1 as [|l w ws Hw Hch IH]; intros ws2 H2; inversion H2; subst; [done|].
  assert (w = w0) as <- by congruence. f_equal. by apply IH.
Qed.

(** A store grown at its end keeps its paths. *)
Lemma chain_app h h' o ws : chain h o ws → chain (h ++ h') o ws.
Proof.
  induction 1 as [|l w ws Hw Hch IH]; econstructor; eauto.
  by apply lookup_app_l_Some.
Qed.

Section RenderingProperties.

Variable unicode_isalnum : ascii -> bool.

Abbreviation context' := (context unicode_isalnum).

Lemma walk_up_chain h o ws :
  chain h o ws → ∀ fuel contexts,
  (List.length ws <= fuel)%nat →
  walk_up unicode_isalnum fuel h o contexts
  = Some (contexts ++ mbind (fun w => [context' w; custom_context w]) ws).
Proof.
  induction 1 as [|l w ws Hw Hch IH]; intros fuel contexts Hfuel.
  - destruct fuel; cbn; by rewrite app_nil_r.
  - destruct fuel as [|fuel]; [cbn in Hfuel; lia|].
    cbn [walk_up]. rewrite Hw. cbn [mbind option_bind].
    rewrite IH by (cbn in Hfuel; lia).
    by rewrite <- app_assoc.
Qed.

Lemma concat_reverse_contexts (ws : list walker) :
  String.concat EmptyString
    (reverse (mbind (fun w => [context' w; custom_context w]) ws))
  = String.concat EmptyString
      ((fun w => custom_context w +:+ context' w) <$> reverse ws).
Proof.
  induction ws as [|w ws IH]; [done|].
  rewrite bind_cons, reverse_app, (reverse_cons ws w), fmap_app, !concat_app.
  by rewrite IH.
Qed.

(** The text of an error, as the code builds it: along the path from the
    root to the walker, the annotation of each walker and then its own
    fragment. *)
Lemma WalkerError_str_run h l ws msg :
  wf_heap h → chain h (Some l) ws →
  __str__ unicode_isalnum h (WalkerError l msg)
  = Some (code_rendering unicode_isalnum ws msg).
Proof.
  intros Hwf Hch. unfold __str__, WalkerError_str, code_rendering, code_path.
  assert (List.length ws <= List.length h)%nat as Hlen.
  { pose proof (chain_length h _ ws Hwf Hch l eq_refl).
    inversion Hch; subst. apply lookup_lt_Some in H1. lia. }
  rewrite (walk_up_chain h (Some l) ws Hch) by done.
  cbn [mbind option_bind app]. by rewrite concat_reverse_contexts.
Qed.

(** In a well-formed store the loop of [__str__] ends: every error on a
    walker of the store has a text. *)
Lemma WalkerError_str_total h l w msg :
  wf_heap h → h !! l = Some w →
  ∃ ws, chain h (Some l) (w :: ws)
        ∧ __str__ unicode_isalnum h (WalkerError l msg)
          = Some (code_rendering unicode_isalnum (w :: ws) msg).
Proof.
  intros Hwf Hw. destruct (chain_exists h Hwf l w Hw) as [ws Hch].
  exists ws. split; [done|]. by apply WalkerError_str_run.
Qed.

(** With no annotation anywhere the two readings agree. *)
Lemma code_rendering_plain (ws : list walker) msg :
  Forall (fun w => custom_context w = EmptyString) ws →
  code_rendering unicode_isalnum ws msg = spec_rendering unicode_isalnum ws msg.
Proof.
  intros Hplain. unfold code_rendering, spec_rendering, code_path, spec_path.
  do 2 f_equal.
  apply Forall_fmap_ext. apply Forall_reverse.
  eapply Forall_impl; [exact Hplain|].
  intros w Hw. cbn. by rewrite Hw, append_nil_r.
Qed.

End RenderingProperties.

(** C2 fails on the code: the annotation of a walker comes out before the
    fragment of that walker, not after it.  The loop appends the fragment
    and then the annotation, and the reversal of the flat list swaps the
    two.  For the annotated attribute [a], the code gives the first text
    and the claim the second. *)
Theorem annotation_before_fragment :
  let root := mk_walker Walker (VDict [("a", VInt 1)]) None "" in
  let w := mk_walker (ObjectWalker ({["a"]} ∪ ∅)) (VDict [("a", VInt 1)])
             (Some 0%nat) "" in
  let a := mk_walker (WalkerInObject "a") (VInt 1) (Some 1%nat) "@" in
  annotated_attribute []
  = ([root; w; a], Raise (WalkerError 2%nat "Expected a string"))
  ∧ chain [root; w; a] (Some 2%nat) [a; w; root]
  ∧ __str__ latin1_isalnum [root; w; a] (WalkerError 2%nat "Expected a string")
    = Some "root@.a: Expected a string"
  ∧ spec_rendering latin1_isalnum [a; w; root] "Expected a string"
    = "root.a@: Expected a string".
Proof.
  intros root w a. split; [vm_compute; reflexivity|].
  split; [repeat (econstructor; [reflexivity|]); constructor|].
  split; vm_compute; reflexivity.
Qed.

(** The tests of the repository that look at the text of the error. *)
Example test_array_context_raised :
  raised latin1_isalnum (test_array_context [])
  = Some "root[1]: Expected an integer".
Proof. vm_compute. reflexivity. Qed.

Example test_complex_context_raised :
  raised latin1_isalnum (test_complex_context [])
  = Some "root.three[2]: Expected an integer".
Proof. vm_compute. reflexivity. Qed.

Example test_object_walker_other_raised :
  raised latin1_isalnum (test_object_walker_other [])
  = Some "root.three: Unexpected key".
Proof. vm_compute. reflexivity. Qed.

Example test_object_walker_missing_raised :
  raised latin1_isalnum (test_object_walker_missing [])
  = Some "root.five: Mandatory key is missing".
Proof. vm_compute. reflexivity. Qed.

(** ** The store stays well formed *)

Lemma wf_heap_nil : wf_heap [].
Proof. intros l w Hl. by rewrite lookup_nil in Hl. Qed.

Lemma wf_heap_alloc h w :
  wf_heap h → wf_walker (List.length h) w → wf_heap (h ++ [w]).
Proof.
  intros Hwf Hw l w' Hl.
  apply lookup_app_Some in Hl as [Hl|[Hlen Hl]]; [by apply Hwf|].
  apply list_lookup_singleton_Some in Hl as [Hz <-].
  by replace l with (List.length h) by lia.
Qed.

Lemma wf_heap_insert h l w w' :
  wf_heap h → h !! l = Some w → parent w' = parent w →
  wf_heap (<[l := w']> h).
Proof.
  intros Hwf Hl Hpar l' w'' Hl'.
  apply list_lookup_insert_Some in Hl' as [(-> & <- & _)|[Hne Hl']].
  - specialize (Hwf _ _ Hl). unfold wf_walker in *. by rewrite Hpar.
  - by apply Hwf.
Qed.

Lemma chain_insert_other h l w' o ws :
  chain h o ws → (∀ p, o = Some p → (p < l)%nat) → wf_heap h →
  chain (<[l := w']> h) o ws.
Proof.
  intros Hch. induction Hch as [|p w ws Hw Hch IH]; intros Hlt Hwf;
    [constructor|].
  specialize (Hlt p eq_refl). econstructor.
  - rewrite list_lookup_insert_ne by lia. done.
  - apply IH; [|done]. intros q Hq.
    specialize (Hwf p w Hw). unfold wf_walker in Hwf. rewrite Hq in Hwf. lia.
Qed.

(** The methods that make or change walkers keep the store well formed. *)
Lemma Walker_init_wf root h : wf_heap h → wf_heap (Walker_init root h).1.
Proof. intros Hwf. by apply wf_heap_alloc. Qed.

Lemma set_custom_context_wf self ctx h :
  wf_heap h → wf_heap (set_custom_context self ctx h).1.
Proof.
  intros Hwf. unfold set_custom_context, mbind, M_bind, bind, deref.
  destruct (h !! self) as [w|] eqn:Hw; [|done].
  by eapply wf_heap_insert.
Qed.

Lemma default_to_wf self x h : wf_heap h → wf_heap (default_to self x h).1.
Proof.
  intros Hwf. unfold default_to. unfold_M.
  destruct (h !! self) as [w|] eqn:Hw; [|done].
  destruct (isinstance (obj w) TMissingValue); [|done].
  rewrite Hw. by eapply wf_heap_insert.
Qed.

Lemma enter_object_wf self h : wf_heap h → wf_heap (enter_object self h).1.
Proof.
  intros Hwf. unfold enter_object, mbind, M_bind, bind.
  destruct (h !! self) as [w|] eqn:Hw.
  - rewrite (as_type_run h self w) by done.
    unfold extraction_contract.
    destruct (isinstance (obj w) Tdict) eqn:Hdict;
      [|destruct (isinstance (obj w) TMissingValue); exact Hwf].
    unfold ObjectWalker_init. rewrite Hdict.
    apply wf_heap_alloc; [done|]. by eapply lookup_lt_Some.
  - unfold as_type, mbind, M_bind, bind, deref. by rewrite Hw.
Qed.

Lemma getitem_wf self key h : wf_heap h → wf_heap (__getitem__ self key h).1.
Proof.
  intros Hwf. unfold __getitem__, deref_object, mbind, M_bind, bind, deref.
  destruct (h !! self) as [w|] eqn:Hw; [|done].
  assert (self < List.length h)%nat as Hlt by by eapply lookup_lt_Some.
  destruct (class_of w) as [| | |referenced_keys]; try done.
  destruct (obj w) as [| | | | | |attrs|]; try done.
  unfold ret, store, dict_getitem, WalkerInObject_init, alloc.
  destruct (dict_contains attrs key).
  - assert (wf_heap (<[self := set_class w (ObjectWalker ({[key]} ∪ referenced_keys))]> h))
      as Hwf' by by eapply wf_heap_insert.
    destruct (dict_get attrs key); [|done].
    apply wf_heap_alloc; [done|]. unfold wf_walker. cbn.
    by rewrite length_insert.
  - by apply wf_heap_alloc.
Qed.

(** ** [ObjectWalker]: indexing *)

Lemma deref_object_run h self w referenced_keys attrs :
  h !! self = Some w →
  class_of w = ObjectWalker referenced_keys →
  obj w = VDict attrs →
  deref_object self h = (h, Return (w, referenced_keys, attrs)).
Proof.
  intros Hw Hc Ho. unfold deref_object, mbind, M_bind, bind, deref.
  by rewrite Hw, Hc, Ho.
Qed.

Lemma dict_contains_get attrs key :
  dict_contains attrs key = true ↔ ∃ v, dict_get attrs key = Some v.
Proof.
  unfold dict_contains. by rewrite bool_decide_eq_true.
Qed.

Section ObjectWalkerProperties.

Variable unicode_isalnum : ascii -> bool.

(** The path of a fresh walker: the path of its parent, then its own
    fragment. *)
Lemma code_path_cons (w : walker) (ws : list walker) :
  custom_context w = EmptyString →
  code_path unicode_isalnum (w :: ws)
  = code_path unicode_isalnum ws +:+ context unicode_isalnum w.
Proof.
  intros Hctx. unfold code_path.
  rewrite reverse_cons, fmap_app, concat_app. f_equal.
  cbn. by rewrite Hctx.
Qed.

Lemma str_of_fresh_child h self c ws msg :
  wf_heap h → chain h (Some self) ws →
  parent c = Some self → custom_context c = EmptyString →
  __str__ unicode_isalnum (h ++ [c]) (WalkerError (List.length h) msg)
  = Some (code_path unicode_isalnum ws +:+ context unicode_isalnum c
          +:+ ": " +:+ msg).
Proof.
  intros Hwf Hch Hpar Hctx.
  assert (self < List.length h)%nat as Hlt.
  { inversion Hch; subst. by eapply lookup_lt_Some. }
  rewrite (WalkerError_str_run _ _ _ (c :: ws)).
  - unfold code_rendering. by rewrite code_path_cons, append_assoc.
  - apply wf_heap_alloc; [done|]. unfold wf_walker. by rewrite Hpar.
  - econstructor.
    + by rewrite lookup_app_r, Nat.sub_diag.
    + rewrite Hpar. by apply chain_app.
Qed.

End ObjectWalkerProperties.

(** ** [ObjectWalker]: leaving the scope *)

Lemma first_unreferenced_None referenced_keys attrs :
  first_unreferenced referenced_keys attrs = None
  ↔ ∀ key val, (key, val) ∈ attrs → key ∈ referenced_keys.
Proof.
  unfold first_unreferenced. induction attrs as [|[k v] attrs IH]; cbn.
  - split; [|done]. intros _ key val Hin. by apply elem_of_nil in Hin.
  - case_bool_decide as Hk.
    + split; [done|]. intros Hall. exfalso. apply Hk. eapply Hall. left.
    + rewrite IH. split.
      * intros Hall key val [[= -> ->]|Hin]%elem_of_cons; eauto.
      * intros Hall key val Hin. eapply Hall. by right.
Qed.

(** The first unreferenced attribute has unreferenced no attribute before
    it. *)
Lemma first_unreferenced_Some referenced_keys attrs key val :
  first_unreferenced referenced_keys attrs = Some (key, val)
  ↔ ∃ before after,
      attrs = before ++ ((key, val) :: after)
      ∧ (key ∉ referenced_keys)
      ∧ ∀ k v, (k, v) ∈ before → k ∈ referenced_keys.
Proof.
  unfold first_unreferenced. revert key val.
  induction attrs as [|[k v] attrs IH]; intros key val; cbn.
  - split; [done|]. intros (before & after & Heq & _). by destruct before.
  - case_bool_decide as Hk.
    + split.
      * intros [= -> ->]. exists [], attrs. split_and!; [done..|].
        intros k' v' Hin. by apply elem_of_nil in Hin.
      * intros ([|[k' v'] before] & after & Heq & Hnot & Hall).
        -- by injection Heq as -> -> _.
        -- injection Heq as -> -> _. exfalso. apply Hk. eapply Hall. left.
    + rewrite IH. split.
      * intros (before & after & -> & Hnot & Hall).
        exists ((k, v) :: before), after. split_and!; [done..|].
        intros k' v' [[= -> ->]|Hin]%elem_of_cons; eauto.
      * intros ([|[k' v'] before] & after & Heq & Hnot & Hall).
        -- injection Heq as -> -> _. done.
        -- injection Heq as -> -> ->. exists before, after.
           split_and!; [done..|]. intros k'' v'' Hin. eapply Hall. by right.
Qed.

Lemma unreferenced_run self referenced_keys attrs h :
  unreferenced self referenced_keys attrs h
  = match first_unreferenced referenced_keys attrs with
    | None => (h, Return tt)
    | Some (key, val) =>
        (h ++ [mk_walker (WalkerInObject key) val (Some self) ""],
         Raise (WalkerError (List.length h) "Unexpected key"))
    end.
Proof.
  unfold first_unreferenced.
  induction attrs as [|[k v] attrs IH]; [done|].
  cbn [unreferenced find]. unfold mbind, M_bind, bind.
  destruct (decide (k ∈ referenced_keys)) as [Hk|Hk].
  - rewrite bool_decide_eq_false_2 by (cbn; tauto). apply IH.
  - by rewrite bool_decide_eq_true_2 by done.
Qed.

Lemma dict_get_elem_of attrs key v :
  dict_get attrs key = Some v → (key, v) ∈ attrs.
Proof.
  induction attrs as [|[k o] attrs IH]; [done|]. cbn [dict_get].
  destruct (decide (k = key)) as [->|Hne].
  - intros [= ->]. left.
  - intros Hget. right. auto.
Qed.

Lemma dict_contains_elem_of attrs key :
  dict_contains attrs key = true ↔ ∃ val, (key, val) ∈ attrs.
Proof.
  rewrite dict_contains_get. split.
  - intros [v Hv]. exists v. by apply dict_get_elem_of.
  - intros [val Hin]. induction attrs as [|[k o] attrs IH].
    + by apply elem_of_nil in Hin.
    + cbn [dict_get]. destruct (decide (k = key)) as [->|Hne]; [eauto|].
      apply elem_of_cons in Hin as [[= -> ->]|Hin]; [done | auto].
Qed.

Lemma assert_no_other_keys_run h self w referenced_keys attrs :
  h !! self = Some w →
  class_of w = ObjectWalker referenced_keys →
  obj w = VDict attrs →
  assert_no_other_keys self h
  = match first_unreferenced referenced_keys attrs with
    | None => (h, Return tt)
    | Some (key, val) =>
        (h ++ [mk_walker (WalkerInObject key) val (Some self) ""],
         Raise (WalkerError (List.length h) "Unexpected key"))
    end.
Proof.
  intros Hw Hc Ho. unfold assert_no_other_keys, mbind, M_bind, bind.
  rewrite (deref_object_run h self w referenced_keys attrs) by done.
  apply unreferenced_run.
Qed.

(** C5: the test of [__getitem__] is true exactly when the object has an
    attribute with the key.  Indexing an [ObjectWalker] with a key of its
    object records the key: the walker is afterwards an [ObjectWalker]
    whose [referenced_keys] are the key and those it had, on the same
    object, with the same parent and annotation; and it returns a fresh
    [WalkerInObject] on the value of the attribute, with this walker as
    parent and the key.  The record is what the check on leaving the scope
    reads: with the key not referenced before, leaving the scope raised
    "Unexpected key" before the call, and after it raises nothing when the key was
    the only one not referenced.  Indexing it with a key the object does
    not have returns a fresh [WalkerInObject] on a [MissingValue], with
    this walker as parent and the key, and changes nothing else; an
    extraction on it then returns the default, or raises
    "Mandatory key is missing", and the text of an error on it ends its path with the
    fragment of the key. *)
Theorem ObjectWalker_getitem unicode_isalnum h self w referenced_keys attrs key :
  h !! self = Some w →
  class_of w = ObjectWalker referenced_keys →
  obj w = VDict attrs →
  let l := List.length h in
  (dict_contains attrs key = true ↔ ∃ v, (key, v) ∈ attrs)
  ∧ (dict_contains attrs key = true →
     ∃ v,
       dict_get attrs key = Some v ∧ (key, v) ∈ attrs
       ∧ let recorded :=
           mk_walker (ObjectWalker ({[key]} ∪ referenced_keys)) (VDict attrs)
             (parent w) (custom_context w) in
         let h' := <[self := recorded]> h
                   ++ [mk_walker (WalkerInObject key) v (Some self) ""] in
         __getitem__ self key h = (h', Return l)
         ∧ h' !! self = Some recorded
         ∧ (∀ k, k ∈ ({[key]} ∪ referenced_keys : gset string)
                 ↔ k = key ∨ k ∈ referenced_keys)
         ∧ (key ∉ referenced_keys →
            ∃ hx lx,
              __exit__ self None h = (hx, Raise (WalkerError lx "Unexpected key")))
         ∧ ((∀ k val, (k, val) ∈ attrs → k = key ∨ k ∈ referenced_keys) →
            __exit__ self None h' = (h', Return tt)))
  ∧ (dict_contains attrs key = false →
     let h' := h ++ [mk_walker (WalkerInObject key) MissingValue (Some self) ""] in
     __getitem__ self key h = (h', Return l)
     ∧ (∀ typ msg default, typ ≠ TMissingValue →
          as_type l typ msg default h'
          = (h', match not_None default with
                 | Some d => Return d
                 | None => Raise (WalkerError l "Mandatory key is missing")
                 end))
     ∧ (∀ ws msg, wf_heap h → chain h (Some self) ws →
          __str__ unicode_isalnum h' (WalkerError l msg)
          = Some (code_path unicode_isalnum ws
                  +:+ WalkerInObject_context unicode_isalnum key
                  +:+ ": " +:+ msg))).
Proof.
  intros Hw Hc Ho l. split; [apply dict_contains_elem_of|]. split.
  - intros Hin. pose proof Hin as [v Hv]%dict_contains_get.
    exists v. split; [done|]. split; [by apply dict_get_elem_of|].
    intros recorded h'.
    assert (self < List.length h)%nat as Hlt by by eapply lookup_lt_Some.
    assert (h' !! self = Some recorded) as Hrec.
    { subst h'. rewrite lookup_app_l by by rewrite length_insert.
      by apply list_lookup_insert_eq. }
    split_and!.
    + unfold __getitem__, mbind, M_bind, bind.
      rewrite (deref_object_run h self w referenced_keys attrs) by done.
      rewrite Hin. unfold store, dict_getitem, WalkerInObject_init, alloc.
      rewrite Hv. unfold ret. rewrite length_insert.
      subst h' recorded. unfold set_class. by rewrite Ho.
    + done.
    + intros k. rewrite elem_of_union, elem_of_singleton. tauto.
    + intros Hnew. cbn [__exit__].
      rewrite (assert_no_other_keys_run h self w referenced_keys attrs) by done.
      destruct (first_unreferenced referenced_keys attrs) as [[k val]|] eqn:Hfirst.
      * eauto.
      * exfalso. apply Hnew.
        eapply first_unreferenced_None; [done | by apply dict_get_elem_of].
    + intros Hall. cbn [__exit__].
      rewrite (assert_no_other_keys_run h' self recorded
                 ({[key]} ∪ referenced_keys) attrs) by done.
      assert (first_unreferenced ({[key]} ∪ referenced_keys) attrs = None)
        as ->; [|done].
      apply first_unreferenced_None. intros k val Hk.
      rewrite elem_of_union, elem_of_singleton. eauto.
  - intros Hnot h'.
    split; [|split].
    + unfold __getitem__, mbind, M_bind, bind.
      rewrite (deref_object_run h self w referenced_keys attrs) by done.
      by rewrite Hnot.
    + intros typ msg default Htyp.
      rewrite (as_type_run h' l
                 (mk_walker (WalkerInObject key) MissingValue (Some self) ""))
        by (subst h' l; by rewrite lookup_app_r, Nat.sub_diag).
      unfold extraction_contract. by destruct typ.
    + intros ws msg Hwf Hch. subst h' l.
      by rewrite (str_of_fresh_child unicode_isalnum h self _ ws).
Qed.

Lemma ObjectWalker_getitem_witness :
  let root := mk_walker Walker (VDict [("one", VInt 1)]) None "" in
  let w := mk_walker (ObjectWalker ∅) (VDict [("one", VInt 1)]) (Some 0%nat) "" in
  let recorded :=
    mk_walker (ObjectWalker ({["one"]} ∪ ∅)) (VDict [("one", VInt 1)])
      (Some 0%nat) "" in
  let one := mk_walker (WalkerInObject "one") (VInt 1) (Some 1%nat) "" in
  let five := mk_walker (WalkerInObject "five") MissingValue (Some 1%nat) "" in
  (__getitem__ 1%nat "one" [root; w] = ([root; recorded; one], Return 2%nat)
   ∧ (∃ hx lx,
        __exit__ 1%nat None [root; w]
        = (hx, Raise (WalkerError lx "Unexpected key")))
   ∧ __exit__ 1%nat None [root; recorded; one]
     = ([root; recorded; one], Return tt))
  ∧ __getitem__ 1%nat "five" [root; w] = ([root; w; five], Return 2%nat)
  ∧ as_int 2%nat None [root; w; five]
    = ([root; w; five], Raise (WalkerError 2%nat "Mandatory key is missing"))
  ∧ __str__ latin1_isalnum [root; w; five]
      (WalkerError 2%nat "Mandatory key is missing")
    = Some "root.five: Mandatory key is missing".
Proof.
  intros root w recorded one five.
  destruct (ObjectWalker_getitem latin1_isalnum [root; w] 1%nat w ∅
              [("one", VInt 1)] "one" eq_refl eq_refl eq_refl)
    as (_ & Hpresent & _).
  destruct (Hpresent eq_refl) as (v & Hv & _ & Hget & _ & _ & Hbefore & Hafter).
  vm_compute in Hv. injection Hv as <-.
  destruct (ObjectWalker_getitem latin1_isalnum [root; w] 1%nat w ∅
              [("one", VInt 1)] "five" eq_refl eq_refl eq_refl)
    as (_ & _ & Hmissing).
  destruct (Hmissing eq_refl) as (Hget5 & Has & Hstr).
  split_and!.
  - exact Hget.
  - apply Hbefore. intros Hin. vm_compute in Hin. discriminate.
  - apply Hafter. intros k val Hin. left.
    apply list_elem_of_In in Hin. cbn in Hin.
    by destruct Hin as [[= <- <-]|[]].
  - exact Hget5.
  - exact (Has Tint "Expected an integer" None ltac:(discriminate)).
  - apply (Hstr [w; root]).
    + intros [|[|l]] w' Hl; cbn in Hl; simplify_eq; cbn; lia.
    + repeat (econstructor; [reflexivity|]). constructor.
Defined.

(** C3: when the scope of an [ObjectWalker] is left with an exception on
    its way, [__exit__] checks nothing: it returns and leaves the store as
    it is, and the [with] statement raises that exception again.  When the
    scope is left with none, [__exit__] is [assert_no_other_keys]: it
    raises the error "Unexpected key" on a fresh walker for the first attribute, in
    the order of the object, whose key is not in [referenced_keys], and
    raises nothing when every key is in it. *)
Theorem ObjectWalker_exit h self w referenced_keys attrs :
  h !! self = Some w →
  class_of w = ObjectWalker referenced_keys →
  obj w = VDict attrs →
  (∀ e, __exit__ self (Some e) h = (h, Return tt))
  ∧ (∀ A (body : loc → M A) h0 e,
       body self h0 = (h, Raise e) → with_ self body h0 = (h, Raise e))
  ∧ __exit__ self None h = assert_no_other_keys self h
  ∧ assert_no_other_keys self h
    = match first_unreferenced referenced_keys attrs with
      | None => (h, Return tt)
      | Some (key, val) =>
          (h ++ [mk_walker (WalkerInObject key) val (Some self) ""],
           Raise (WalkerError (List.length h) "Unexpected key"))
      end
  ∧ (∀ before key val after,
       attrs = before ++ ((key, val) :: after) →
       (∀ k v, (k, v) ∈ before → k ∈ referenced_keys) →
       key ∉ referenced_keys →
       __exit__ self None h
       = (h ++ [mk_walker (WalkerInObject key) val (Some self) ""],
          Raise (WalkerError (List.length h) "Unexpected key")))
  ∧ ((∀ key val, (key, val) ∈ attrs → key ∈ referenced_keys) →
     __exit__ self None h = (h, Return tt))
  ∧ (∀ A (body : loc → M A) h0 a,
       body self h0 = (h, Return a) →
       with_ self body h0
       = match first_unreferenced referenced_keys attrs with
         | None => (h, Return a)
         | Some (key, val) =>
             (h ++ [mk_walker (WalkerInObject key) val (Some self) ""],
              Raise (WalkerError (List.length h) "Unexpected key"))
         end).
Proof.
  intros Hw Hc Ho.
  assert (Hassert : assert_no_other_keys self h
    = match first_unreferenced referenced_keys attrs with
      | None => (h, Return tt)
      | Some (key, val) =>
          (h ++ [mk_walker (WalkerInObject key) val (Some self) ""],
           Raise (WalkerError (List.length h) "Unexpected key"))
      end).
  { unfold assert_no_other_keys, mbind, M_bind, bind.
    rewrite (deref_object_run h self w referenced_keys attrs) by done.
    apply unreferenced_run. }
  split_and!; try done.
  - intros A body h0 e Hbody.
    unfold with_, leave, __enter__, mbind, M_bind, bind, ret.
    by rewrite Hbody.
  - intros before key val after Hattrs Hbefore Hkey.
    cbn [__exit__]. rewrite Hassert.
    assert (first_unreferenced referenced_keys attrs = Some (key, val)) as ->;
      [|done].
    apply first_unreferenced_Some. by exists before, after.
  - intros Hall. cbn [__exit__]. rewrite Hassert.
    by apply first_unreferenced_None in Hall as ->.
  - intros A body h0 a Hbody.
    unfold with_, leave, __enter__, mbind, M_bind, bind, ret.
    rewrite Hbody. cbn [__exit__]. rewrite Hassert.
    by destruct (first_unreferenced referenced_keys attrs) as [[key val]|].
Qed.

Lemma ObjectWalker_exit_witness :
  let root := mk_walker Walker one_two_three None "" in
  let w := mk_walker (ObjectWalker ({["two"]} ∪ ({["one"]} ∪ ∅))) one_two_three
             (Some 0%nat) "" in
  __exit__ 1%nat None [root; w]
  = ([root; w; mk_walker (WalkerInObject "three") (VBool false) (Some 1%nat) ""],
     Raise (WalkerError 2%nat "Unexpected key"))
  ∧ __exit__ 1%nat (Some (WalkerError 1%nat "Expected a string")) [root; w]
    = ([root; w], Return tt).
Proof.
  intros root w.
  destruct (ObjectWalker_exit [root; w] 1%nat w ({["two"]} ∪ ({["one"]} ∪ ∅))
              [("one", VInt 1); ("two", VStr "dva"); ("three", VBool false)]
              eq_refl eq_refl eq_refl)
    as (Hskip & _ & _ & _ & Hfirst & _).
  split.
  - apply (Hfirst [("one", VInt 1); ("two", VStr "dva")] "three" (VBool false) []).
    + reflexivity.
    + intros k v Hin. apply list_elem_of_In in Hin. cbn in Hin.
      destruct Hin as [[= <- <-]|[[= <- <-]|[]]]; vm_compute; reflexivity.
    + intros Hin. vm_compute in Hin. discriminate.
  - apply Hskip.
Defined.

(** ** Path fragments *)

Lemma fullmatch_Alt r1 r2 s :
  fullmatch (Alt r1 r2) s = fullmatch r1 s || fullmatch r2 s.
Proof. revert r1 r2. induction s as [|c s IH]; intros r1 r2; cbn; auto. Qed.

Lemma fullmatch_Seq_Fail r s : fullmatch (Seq Fail r) s = false.
Proof. induction s as [|c s IH]; cbn; auto. Qed.

(** After a first character, [p+] asks that all the others satisfy [p]. *)
Lemma fullmatch_Seq_Eps_Star p s :
  fullmatch (Seq Eps (Star (Class p))) s
  = forallb p (String.list_ascii_of_string s).
Proof.
  induction s as [|c s IH]; [done|].
  cbn [fullmatch deriv nullable String.list_ascii_of_string forallb].
  rewrite fullmatch_Alt, fullmatch_Seq_Fail. cbn [orb].
  destruct (p c); [exact IH | apply fullmatch_Seq_Fail].
Qed.

Lemma fullmatch_Plus_Class p s :
  fullmatch (Plus (Class p)) s = true
  ↔ s ≠ EmptyString ∧ ∀ c, c ∈ String.list_ascii_of_string s → p c = true.
Proof.
  destruct s as [|c s].
  - split; [done | by intros [? _]].
  - unfold Plus. cbn [fullmatch deriv nullable String.list_ascii_of_string].
    destruct (p c) eqn:Hc.
    + rewrite fullmatch_Seq_Eps_Star, forallb_forall. split.
      * intros Hall. split; [done|].
        intros c' [->|Hin]%elem_of_cons; [done|].
        by apply Hall, list_elem_of_In.
      * intros [_ Hall] c' Hin. apply Hall. right. by apply list_elem_of_In.
    + rewrite fullmatch_Seq_Fail. split; [done|].
      intros [_ Hall]. rewrite Hall in Hc; [done | left].
Qed.

Lemma sub_escaped key :
  sub backslash_or_dquote backslash_group1 key = escaped key.
Proof.
  induction key as [|c key IH]; [done|].
  cbn [sub escaped]. rewrite IH.
  unfold backslash_or_dquote, is_char.
  cbn [fullmatch deriv nullable].
  destruct (decide (c = backslash ∨ c = dquote)) as [[Hc|Hc]|Hno].
  - by subst c.
  - by subst c.
  - rewrite !bool_decide_eq_false_2 by (intros Hc; subst c; tauto). done.
Qed.


Section ContextProperties.

Variable unicode_isalnum : ascii -> bool.

Lemma fullmatch_word_plus key :
  fullmatch (word_plus unicode_isalnum) key = true
  ↔ word_key unicode_isalnum key.
Proof. apply fullmatch_Plus_Class. Qed.

(** C7: the fragment of a root walker is "root"; of a [WalkerInArray], its
    index in decimal between square brackets; of a [WalkerInObject], a dot
    and the key when the key is one or more word characters, and otherwise
    a dot and the key between double quotes, each backslash and double
    quote of it after a backslash; of an [ObjectWalker], the empty
    string. *)
Theorem context_by_class (o : value) (p : option loc) (ctx : string) :
  context unicode_isalnum (mk_walker Walker o p ctx) = "root"
  ∧ (∀ index,
       context unicode_isalnum (mk_walker (WalkerInArray index) o p ctx)
       = "[" +:+ pretty index +:+ "]")
  ∧ (∀ key, word_key unicode_isalnum key →
       context unicode_isalnum (mk_walker (WalkerInObject key) o p ctx)
       = "." +:+ key)
  ∧ (∀ key, ¬ word_key unicode_isalnum key →
       context unicode_isalnum (mk_walker (WalkerInObject key) o p ctx)
       = "." +:+ String dquote (escaped key +:+ String dquote EmptyString))
  ∧ (∀ referenced_keys,
       context unicode_isalnum (mk_walker (ObjectWalker referenced_keys) o p ctx)
       = EmptyString).
Proof.
  split_and!; try done.
  - intros key Hkey%fullmatch_word_plus.
    cbn [context class_of]. unfold WalkerInObject_context. by rewrite Hkey.
  - intros key Hkey. cbn [context class_of]. unfold WalkerInObject_context.
    destruct (fullmatch (word_plus unicode_isalnum) key) eqn:Hm.
    + by apply fullmatch_word_plus in Hm.
    + by rewrite sub_escaped.
Qed.

End ContextProperties.

Lemma context_by_class_witness :
  context latin1_isalnum (mk_walker (WalkerInObject "three") VNone (Some 0%nat) "")
  = ".three"
  ∧ context latin1_isalnum
      (mk_walker (WalkerInObject "odd key") VNone (Some 0%nat) "")
    = "." +:+ String dquote ("odd key" +:+ String dquote EmptyString)
  ∧ context latin1_isalnum (mk_walker (WalkerInArray 2) VNone (Some 0%nat) "")
    = "[2]".
Proof.
  destruct (context_by_class latin1_isalnum VNone (Some 0%nat) "")
    as (_ & Harray & Hword & Hquoted & _).
  split_and!.
  - apply Hword. by apply fullmatch_word_plus.
  - apply Hquoted. by intros Hkey%fullmatch_word_plus.
  - apply Harray.
Defined.

(** ** [as_enum] *)

Lemma by_value_Some enum (m : enum_member) :
  m ∈ members enum → ∃ m', by_value enum m.2 = Some m' ∧ m'.2 = m.2.
Proof.
  unfold by_value. induction (members enum) as [|m0 ms IH]; intros Hin.
  - by apply elem_of_nil in Hin.
  - cbn [find]. case_bool_decide as Hm0; [eauto|].
    apply elem_of_cons in Hin as [->|Hin]; [done | auto].
Qed.

Lemma members_values_snd enum :
  snd <$> members_values enum = snd <$> members enum.
Proof.
  unfold members_values.
  assert (∀ l, l ⊆ members enum →
    snd <$> omap (fun m : enum_member => by_value enum m.2) l = snd <$> l)
    as Hsub; [|by apply Hsub].
  induction l as [|m l IH]; intros Hl; [done|].
  destruct (by_value_Some enum m) as (m' & Hm' & Heq); [apply Hl; left|].
  cbn [omap list_omap]. rewrite Hm'. cbn [fmap list_fmap]. rewrite Heq. f_equal.
  apply IH. intros x Hx. apply Hl. by right.
Qed.

#[local] Instance by_value_total : Total (fun a b : enum_member => String.le a.2 b.2).
Proof. intros a b. apply (total String.le). Qed.

Lemma sorted_by_value (ms : list enum_member) :
  snd <$> merge_sort (fun a b : enum_member => String.le a.2 b.2) ms
  = merge_sort String.le (snd <$> ms).
Proof.
  apply (Sorted_unique String.le).
  - apply (Sorted_fmap snd (fun a b : enum_member => String.le a.2 b.2)).
    + done.
    + apply Sorted_merge_sort, _.
  - apply Sorted_merge_sort, _.
  - by rewrite !merge_sort_Permutation.
Qed.

(** For an enumeration whose members are strings, the message is the one
    of the specification. *)
Lemma as_enum_str_mixin h self w enum default s :
  h !! self = Some w → obj w = VStr s →
  str_mixin enum = true → by_value enum s = None →
  as_enum self enum default h
  = (h, Raise (WalkerError self (must_be_one_of enum))).
Proof.
  intros Hw Ho Hmix Hno.
  rewrite (as_enum_run h self w) by done. rewrite Ho, Hno.
  unfold enum_mismatch, sorted, join, mbind, M_bind, bind, ret, raise_error, raise.
  rewrite Hmix. unfold must_be_one_of.
  by rewrite sorted_by_value, members_values_snd.
Qed.

(** C4 fails on the code: for a plain [Enum] of two members, a string that
    is no value of it makes [as_enum] raise [TypeError], from [sorted] on
    the members, where the claim (and the docstring) has the error of the
    module with the message of the sorted values.  With [str] mixed in, the
    same members give that message. *)
Theorem as_enum_plain_Enum :
  let h := [mk_walker Walker (VStr "blue") None ""] in
  as_enum 0%nat Color None h = (h, Raise TypeError)
  ∧ must_be_one_of Color = "Must be one of green/red"
  ∧ as_enum 0%nat StrColor None h
    = (h, Raise (WalkerError 0%nat "Must be one of green/red")).
Proof. split_and!; vm_compute; reflexivity. Qed.

(** * More of the module

    The rest of [src/treewalker/__init__.py]: the predicates, the optional
    extractions, the generators, [enter_object], the membership test, and
    how the methods work together. *)

(** ** Further definitions *)

(** The walkers a loop over [self.array_values()] makes, from index [i]
    on. *)
Fixpoint array_walkers (self : loc) (i : Z) (ary : list value) : list walker :=
  match ary with
  | [] => []
  | o :: rest =>
      mk_walker (WalkerInArray i) o (Some self) "" :: array_walkers self (i + 1) rest
  end.

(** The walkers a loop over [self.object_items()] makes. *)
Definition object_walkers (self : loc) (dct : list (string * value)) : list walker :=
  (fun kv : string * value => mk_walker (WalkerInObject kv.1) kv.2 (Some self) "")
    <$> dct.

(** A loop body that looks at nothing and goes on. *)
Definition pass (w : loc) : M unit := ret tt.

(** [w[key]] for each key of a list, in order, the walkers dropped. *)
Fixpoint getitems (self : loc) (keys : list string) : M unit :=
  match keys with
  | [] => ret tt
  | key :: rest => __getitem__ self key;; getitems self rest
  end.

(** A computation keeps the store well formed and forgets no object. *)
Definition keeps_wf {A} (m : M A) : Prop :=
  ∀ h, wf_heap h → wf_heap (m h).1 ∧ (List.length h <= List.length (m h).1)%nat.

(** Two walker classes at the same place of the tree: the same class, and
    the same index or key. *)
Definition same_place (c1 c2 : walker_class) : Prop :=
  match c1, c2 with
  | Walker, Walker => True
  | WalkerInArray i, WalkerInArray j => i = j
  | WalkerInObject k1, WalkerInObject k2 => k1 = k2
  | ObjectWalker _, ObjectWalker _ => True
  | _, _ => False
  end.

(** Reading a quoted key back: a backslash stands for the character after
    it. *)
Fixpoint unescape (s : string) : string :=
  match s with
  | EmptyString => EmptyString
  | String c s' =>
      if decide (c = backslash) then
        match s' with
        | EmptyString => EmptyString
        | String d s'' => String d (unescape s'')
        end
      else String c (unescape s')
  end.

(** ** The predicates *)

Lemma predicate_runs h self w :
  h !! self = Some w →
  is_null self h = (h, Return (is_None (obj w)))
  ∧ is_str self h = (h, Return (isinstance (obj w) Tstr))
  ∧ is_int self h = (h, Return (isinstance (obj w) Tint))
  ∧ is_number self h
    = (h, Return (isinstance (obj w) Tint || isinstance (obj w) Tfloat))
  ∧ is_bool self h = (h, Return (isinstance (obj w) Tbool))
  ∧ is_missing self h = (h, Return (isinstance (obj w) TMissingValue))
  ∧ is_present self h = (h, Return (negb (isinstance (obj w) TMissingValue)))
  ∧ is_array self h = (h, Return (isinstance (obj w) Tlist))
  ∧ is_object self h = (h, Return (isinstance (obj w) Tdict)).
Proof.
  intros Hw.
  unfold is_null, is_str, is_int, is_number, is_bool, is_missing, is_present,
    is_array, is_object, mbind, M_bind, bind, deref, ret.
  by rewrite Hw.
Qed.

(** X1: the predicates sort the values of a tree.  On every walker each of
    them returns, and changes nothing; exactly one of [is_null], [is_str],
    [is_number], [is_array], [is_object] and [is_missing] is true; a
    Boolean is an integer and an integer is a number; [is_present] is the
    negation of [is_missing]. *)
Theorem predicates_classify h self w :
  h !! self = Some w →
  ∃ null str int number boolean array object missing : bool,
    is_null self h = (h, Return null)
    ∧ is_str self h = (h, Return str)
    ∧ is_int self h = (h, Return int)
    ∧ is_number self h = (h, Return number)
    ∧ is_bool self h = (h, Return boolean)
    ∧ is_array self h = (h, Return array)
    ∧ is_object self h = (h, Return object)
    ∧ is_missing self h = (h, Return missing)
    ∧ is_present self h = (h, Return (negb missing))
    ∧ (Nat.b2n null + Nat.b2n str + Nat.b2n number + Nat.b2n array
       + Nat.b2n object + Nat.b2n missing = 1)%nat
    ∧ (boolean = true → int = true)
    ∧ (int = true → number = true).
Proof.
  intros Hw.
  destruct (predicate_runs h self w Hw)
    as (-> & -> & -> & -> & -> & -> & -> & -> & ->).
  do 8 eexists. split_and!; try reflexivity; by destruct (obj w).
Qed.

Lemma predicates_classify_witness :
  let h := [mk_walker Walker (VBool false) None ""] in
  is_bool 0%nat h = (h, Return true)
  ∧ is_number 0%nat h = (h, Return true)
  ∧ is_null 0%nat h = (h, Return false).
Proof.
  intros h.
  destruct (predicates_classify h 0%nat (mk_walker Walker (VBool false) None "")
              eq_refl)
    as (null & str & int & number & boolean & array & object & missing
        & Hnull & _ & _ & Hnumber & Hbool & _).
  vm_compute in Hnull, Hnumber, Hbool.
  injection Hnull as <-. injection Hnumber as <-. injection Hbool as <-.
  by vm_compute.
Defined.

(** ** [expect_present] *)

(** X2: [expect_present] returns the walker itself when it is present and
    raises "Mandatory key is missing" on it when it is missing, the store as it was;
    so an extraction chained after it, [w.expect_present().as_int(d)], is
    the extraction without a default, whatever [d] is. *)
Theorem expect_present_then h self w typ msg default :
  h !! self = Some w →
  typ ≠ TMissingValue →
  expect_present self h
  = (h, if isinstance (obj w) TMissingValue
        then Raise (WalkerError self "Mandatory key is missing")
        else Return self)
  ∧ (s ← expect_present self; as_type s typ msg default) h
    = as_type self typ msg None h.
Proof.
  intros Hw Htyp.
  assert (Hexp : expect_present self h
    = (h, if isinstance (obj w) TMissingValue
          then Raise (WalkerError self "Mandatory key is missing")
          else Return self)).
  { unfold expect_present. unfold_M. rewrite Hw.
    by destruct (isinstance (obj w) TMissingValue). }
  split; [done|].
  unfold mbind, M_bind, bind. rewrite Hexp.
  rewrite (as_type_run h self w _ _ None) by done.
  unfold extraction_contract.
  destruct (isinstance (obj w) TMissingValue) eqn:Hmiss.
  - destruct (obj w), typ; done.
  - rewrite (as_type_run h self w) by done. unfold extraction_contract.
    by rewrite Hmiss.
Qed.

Lemma expect_present_then_witness :
  let h := [mk_walker Walker MissingValue None ""] in
  (s ← expect_present 0%nat; as_int s (Some (VInt 4))) h
  = (h, Raise (WalkerError 0%nat "Mandatory key is missing")).
Proof.
  intros h.
  exact (proj2 (expect_present_then h 0%nat (mk_walker Walker MissingValue None "")
                  Tint "Expected an integer" (Some (VInt 4)) eq_refl
                  ltac:(discriminate))).
Defined.

(** ** The optional extractions *)

(** X3: [as_optional_str], [as_optional_int], [as_optional_bool] and
    [as_optional_float] return [None] on a missing walker and never raise
    "Mandatory key is missing"; on a present walker each is the extraction of the same
    name, whatever its default.  A node that holds [None], the null of the
    tree, is present: on it they raise the mismatch error. *)
Theorem optional_extraction h self w :
  h !! self = Some w →
  (isinstance (obj w) TMissingValue = true →
     as_optional_str self h = (h, Return VNone)
     ∧ as_optional_int self h = (h, Return VNone)
     ∧ as_optional_float self h = (h, Return VNone)
     ∧ as_optional_bool self h = (h, Return VNone))
  ∧ (isinstance (obj w) TMissingValue = false →
     ∀ default,
       as_optional_str self h = as_str self default h
       ∧ as_optional_int self h = as_int self default h
       ∧ as_optional_float self h = as_float self default h
       ∧ as_optional_bool self h = as_bool self default h)
  ∧ (obj w = VNone →
     as_optional_str self h = (h, Raise (WalkerError self "Expected a string"))
     ∧ as_optional_int self h = (h, Raise (WalkerError self "Expected an integer"))
     ∧ as_optional_float self h = (h, Raise (WalkerError self "Expected a number"))
     ∧ as_optional_bool self h
       = (h, Raise (WalkerError self "Expected a Boolean value"))).
Proof.
  intros Hw.
  unfold as_optional_str, as_optional_int, as_optional_bool, as_str, as_int,
    as_bool.
  rewrite !(as_optional_type_run h self w), (as_optional_float_run h self w)
    by done.
  unfold optional_contract. split_and!.
  - intros Hmiss. rewrite Hmiss. by destruct (obj w).
  - intros Hpres default.
    rewrite !(as_type_run h self w), (as_float_run h self w) by done.
    unfold extraction_contract. by rewrite Hpres.
  - by intros ->.
Qed.

Lemma optional_extraction_witness :
  let h := [mk_walker Walker MissingValue None ""; mk_walker Walker VNone None ""] in
  as_optional_int 0%nat h = (h, Return VNone)
  ∧ as_optional_int 1%nat h = (h, Raise (WalkerError 1%nat "Expected an integer")).
Proof.
  intros h. split.
  - exact (proj1 (proj2 (proj1
      (optional_extraction h 0%nat (mk_walker Walker MissingValue None "") eq_refl)
      eq_refl))).
  - exact (proj1 (proj2 (proj2 (proj2
      (optional_extraction h 1%nat (mk_walker Walker VNone None "") eq_refl))
      eq_refl))).
Defined.

(** ** [as_enum], off the path of C4 *)

Lemma by_value_first enum s m :
  by_value enum s = Some m →
  m.2 = s ∧ ∃ before after,
    members enum = before ++ m :: after ∧ ∀ m', m' ∈ before → m'.2 ≠ s.
Proof.
  unfold by_value. induction (members enum) as [|m0 ms IH]; [done|].
  cbn [find]. case_bool_decide as Hm0.
  - intros [= <-]. split; [done|]. exists [], ms. split; [done|].
    intros m' Hin. by apply elem_of_nil in Hin.
  - intros Hfind. destruct (IH Hfind) as (Heq & before & after & -> & Hbefore).
    split; [done|]. exists (m0 :: before), after. split; [done|].
    intros m' [->|Hin]%elem_of_cons; auto.
Qed.

(** X4: where [as_enum] finds its result.  A string that is the value of a
    member gives that member, the first one defined with the value; on a
    missing walker a default is returned as it is, member of the
    enumeration or not, and without one the error is "Mandatory key is missing"; a
    present value that is no string raises "Expected a string", whatever the default. *)
Theorem as_enum_lookup h self w enum :
  h !! self = Some w →
  (∀ s m default, obj w = VStr s → by_value enum s = Some m →
     as_enum self enum default h = (h, Return m)
     ∧ m.2 = s
     ∧ ∃ before after,
         members enum = before ++ m :: after ∧ ∀ m', m' ∈ before → m'.2 ≠ s)
  ∧ (obj w = MissingValue →
     (∀ d, as_enum self enum (Some (Some d)) h = (h, Return d))
     ∧ as_enum self enum None h
       = (h, Raise (WalkerError self "Mandatory key is missing")))
  ∧ (isinstance (obj w) Tstr = false →
     isinstance (obj w) TMissingValue = false →
     ∀ default,
       as_enum self enum default h
       = (h, Raise (WalkerError self "Expected a string"))).
Proof.
  intros Hw. split_and!.
  - intros s m default Hobj Hm.
    rewrite (as_enum_run h self w) by done. rewrite Hobj, Hm.
    split; [done|]. by apply by_value_first.
  - intros Hobj. split; [intros d|];
      rewrite (as_enum_run h self w) by done; by rewrite Hobj.
  - intros Hstr Hmiss default.
    rewrite (as_enum_run h self w) by done. by destruct (obj w).
Qed.

Lemma as_enum_lookup_witness :
  let h := [mk_walker Walker (VStr "green") None ""] in
  as_enum 0%nat Color None h = (h, Return ("GREEN", "green")).
Proof.
  intros h.
  destruct (as_enum_lookup h 0%nat (mk_walker Walker (VStr "green") None "")
              Color eq_refl) as (Hfound & _).
  exact (proj1 (Hfound "green" ("GREEN", "green") None eq_refl eq_refl)).
Defined.

(** X5: for an enumeration whose members are strings ([str] mixed in), a
    string that is no value of it raises the error of the module with the
    message "Must be one of " and the values of all the names of the enumeration,
    in ascending order as strings, a slash between them. *)
Theorem as_enum_message_sorted h self w enum default s :
  h !! self = Some w →
  obj w = VStr s →
  str_mixin enum = true →
  by_value enum s = None →
  ∃ values,
    Sorted String.le values
    ∧ values ≡ₚ snd <$> members enum
    ∧ as_enum self enum default h
      = (h, Raise (WalkerError self
                     ("Must be one of " +:+ String.concat "/" values))).
Proof.
  intros Hw Hobj Hmix Hno.
  exists (merge_sort String.le (snd <$> members enum)). split_and!.
  - apply Sorted_merge_sort, _.
  - apply merge_sort_Permutation.
  - by rewrite (as_enum_str_mixin h self w enum default s).
Qed.

Lemma as_enum_message_sorted_witness :
  let h := [mk_walker Walker (VStr "blue") None ""] in
  ∃ values,
    Sorted String.le values
    ∧ values ≡ₚ ["red"; "green"]
    ∧ as_enum 0%nat StrColor None h
      = (h, Raise (WalkerError 0%nat
                     ("Must be one of " +:+ String.concat "/" values))).
Proof.
  intros h.
  exact (as_enum_message_sorted h 0%nat (mk_walker Walker (VStr "blue") None "")
           StrColor None "blue" eq_refl eq_refl eq_refl eq_refl).
Defined.

Lemma members_values_length enum :
  List.length (members_values enum) = List.length (members enum).
Proof.
  transitivity (List.length (snd <$> members_values enum)).
  - by rewrite length_fmap.
  - by rewrite members_values_snd, length_fmap.
Qed.

(** X6: for a plain enumeration (no [str] mixed in) that has members, a
    string that is no value of it never gets the error of the module:
    [as_enum] raises [TypeError], from [sorted] when the enumeration has two
    names or more and from [join] when it has one. *)
Theorem as_enum_plain_mismatch h self w enum default s :
  h !! self = Some w →
  obj w = VStr s →
  str_mixin enum = false →
  members enum ≠ [] →
  by_value enum s = None →
  as_enum self enum default h = (h, Raise TypeError).
Proof.
  intros Hw Hobj Hplain Hmembers Hno.
  rewrite (as_enum_run h self w) by done. rewrite Hobj, Hno.
  unfold enum_mismatch, sorted, join, mbind, M_bind, bind, ret, raise.
  rewrite Hplain.
  destruct (decide (2 <= List.length (members_values enum))%nat); [done|].
  pose proof (members_values_length enum) as Hlen.
  destruct (members_values enum); [|done].
  by destruct (members enum).
Qed.

Lemma as_enum_plain_mismatch_witness :
  let h := [mk_walker Walker (VStr "blue") None ""] in
  as_enum 0%nat (mk_enum false [("ONLY", "only")]) None h = (h, Raise TypeError).
Proof.
  intros h.
  exact (as_enum_plain_mismatch h 0%nat (mk_walker Walker (VStr "blue") None "")
           (mk_enum false [("ONLY", "only")]) None "blue"
           eq_refl eq_refl eq_refl ltac:(discriminate) eq_refl).
Defined.

(** ** The store under the methods *)

Lemma keeps_wf_unchanged {A} (m : M A) : (∀ h, (m h).1 = h) → keeps_wf m.
Proof. intros Hm h Hwf. by rewrite Hm. Qed.

Lemma keeps_wf_bind {A B} (m : M A) (k : A → M B) :
  keeps_wf m → (∀ a, keeps_wf (k a)) → keeps_wf (bind m k).
Proof.
  intros Hm Hk h Hwf. unfold bind.
  destruct (Hm h Hwf) as [Hwf1 Hlen1].
  destruct (m h) as [h1 [a|e|]]; [|done..].
  destruct (Hk a h1 Hwf1) as [Hwf2 Hlen2]. cbn in *. split; [done | lia].
Qed.

Lemma keeps_wf_alloc h w :
  wf_heap h → wf_walker (List.length h) w →
  wf_heap (alloc w h).1 ∧ (List.length h <= List.length (alloc w h).1)%nat.
Proof.
  intros Hwf Hw. split; [by apply wf_heap_alloc|].
  cbn. rewrite length_app. lia.
Qed.

Lemma as_type_unchanged self typ msg default h :
  (as_type self typ msg default h).1 = h.
Proof.
  destruct (h !! self) as [w|] eqn:Hw.
  - by rewrite (as_type_run h self w).
  - unfold as_type, mbind, M_bind, bind, deref. by rewrite Hw.
Qed.

Lemma as_type_Return self typ msg h h' v :
  as_type self typ msg None h = (h', Return v) →
  h' = h ∧ ∃ w, h !! self = Some w ∧ obj w = v ∧ isinstance v typ = true.
Proof.
  destruct (h !! self) as [w|] eqn:Hw.
  - rewrite (as_type_run h self w) by done. unfold extraction_contract.
    destruct (isinstance (obj w) typ) eqn:Htyp.
    + intros [= <- <-]. eauto.
    + by destruct (isinstance (obj w) TMissingValue).
  - unfold as_type, mbind, M_bind, bind, deref. by rewrite Hw.
Qed.

Lemma enumerate_keeps self body :
  (∀ l, keeps_wf (body l)) →
  ∀ ary i h, wf_heap h → (self < List.length h)%nat →
  wf_heap (enumerate self i ary body h).1
  ∧ (List.length h <= List.length (enumerate self i ary body h).1)%nat.
Proof.
  intros Hbody ary. induction ary as [|o rest IH]; intros i h Hwf Hself; [done|].
  cbn [enumerate]. unfold mbind, M_bind, bind, WalkerInArray_init.
  destruct (keeps_wf_alloc h (mk_walker (WalkerInArray i) o (Some self) "") Hwf Hself)
    as [Hwf1 Hlen1].
  cbn [alloc fst] in *.
  destruct (Hbody (List.length h) _ Hwf1) as [Hwf2 Hlen2].
  destruct (body (List.length h) _) as [h2 [[]|e|]]; cbn [fst] in *;
    [|split; [done | lia]..].
  destruct (IH (i + 1) h2 Hwf2 ltac:(lia)) as [Hwf3 Hlen3].
  split; [done | lia].
Qed.

Lemma items_keeps self body :
  (∀ key l, keeps_wf (body key l)) →
  ∀ dct h, wf_heap h → (self < List.length h)%nat →
  wf_heap (items self dct body h).1
  ∧ (List.length h <= List.length (items self dct body h).1)%nat.
Proof.
  intros Hbody dct. induction dct as [|[key o] rest IH]; intros h Hwf Hself;
    [done|].
  cbn [items]. unfold mbind, M_bind, bind, WalkerInObject_init.
  destruct (keeps_wf_alloc h (mk_walker (WalkerInObject key) o (Some self) "") Hwf Hself)
    as [Hwf1 Hlen1].
  cbn [alloc fst] in *.
  destruct (Hbody key (List.length h) _ Hwf1) as [Hwf2 Hlen2].
  destruct (body key (List.length h) _) as [h2 [[]|e|]]; cbn [fst] in *;
    [|split; [done | lia]..].
  destruct (IH h2 Hwf2 ltac:(lia)) as [Hwf3 Hlen3].
  split; [done | lia].
Qed.

Lemma array_values_keeps self body :
  (∀ l, keeps_wf (body l)) → keeps_wf (array_values self body).
Proof.
  intros Hbody h Hwf. unfold array_values, mbind, M_bind, bind.
  destruct (as_type self Tlist "Expected an array" None h) as [h' [v|e|]] eqn:Has;
    pose proof (as_type_unchanged self Tlist "Expected an array" None h) as Hsame;
    rewrite Has in Hsame; cbn in Hsame; subst h'; [|done..].
  apply as_type_Return in Has as (_ & w & Hw & <- & _).
  destruct (obj w); try done.
  apply enumerate_keeps; [done..|]. by eapply lookup_lt_Some.
Qed.

Lemma object_items_keeps self body :
  (∀ key l, keeps_wf (body key l)) → keeps_wf (object_items self body).
Proof.
  intros Hbody h Hwf. unfold object_items, mbind, M_bind, bind.
  destruct (as_type self Tdict "Expected an object" None h) as [h' [v|e|]] eqn:Has;
    pose proof (as_type_unchanged self Tdict "Expected an object" None h) as Hsame;
    rewrite Has in Hsame; cbn in Hsame; subst h'; [|done..].
  apply as_type_Return in Has as (_ & w & Hw & <- & _).
  destruct (obj w); try done.
  apply items_keeps; [done..|]. by eapply lookup_lt_Some.
Qed.

Lemma set_custom_context_keeps self ctx : keeps_wf (set_custom_context self ctx).
Proof.
  intros h Hwf. split; [by apply set_custom_context_wf|].
  unfold set_custom_context, mbind, M_bind, bind, deref, store.
  destruct (h !! self); cbn; by rewrite ?length_insert.
Qed.

Lemma default_to_keeps self x : keeps_wf (default_to self x).
Proof.
  intros h Hwf. split; [by apply default_to_wf|].
  unfold default_to, store. unfold_M.
  destruct (h !! self) as [w|] eqn:Hw; [|done].
  destruct (isinstance (obj w) TMissingValue); [|done].
  rewrite Hw. cbn. by rewrite length_insert.
Qed.

Lemma enter_object_keeps self : keeps_wf (enter_object self).
Proof.
  intros h Hwf. split; [by apply enter_object_wf|].
  unfold enter_object, mbind, M_bind, bind.
  destruct (as_type self Tdict "Expected an object" None h) as [h' [v|e|]] eqn:Has;
    pose proof (as_type_unchanged self Tdict "Expected an object" None h) as Hsame;
    rewrite Has in Hsame; cbn in Hsame; subst h'; [|done..].
  unfold ObjectWalker_init. destruct (isinstance v Tdict); [|done].
  cbn. rewrite length_app. lia.
Qed.

Lemma getitem_keeps self key : keeps_wf (__getitem__ self key).
Proof.
  intros h Hwf. split; [by apply getitem_wf|].
  unfold __getitem__, deref_object, mbind, M_bind, bind, deref.
  destruct (h !! self) as [w|] eqn:Hw; [|done].
  destruct (class_of w) as [| | |referenced_keys]; try done.
  destruct (obj w) as [| | | | | |attrs|]; try done.
  unfold ret, store, dict_getitem, WalkerInObject_init, alloc.
  destruct (dict_contains attrs key).
  - destruct (dict_get attrs key); cbn; rewrite ?length_app, length_insert; lia.
  - cbn. rewrite length_app. lia.
Qed.

Lemma assert_no_other_keys_keeps self : keeps_wf (assert_no_other_keys self).
Proof.
  intros h Hwf.
  unfold assert_no_other_keys, deref_object, mbind, M_bind, bind, deref.
  destruct (h !! self) as [w|] eqn:Hw; [|done].
  destruct (class_of w) as [| | |referenced_keys]; try done.
  destruct (obj w) as [| | | | | |attrs|]; try done.
  unfold ret. rewrite unreferenced_run.
  destruct (first_unreferenced referenced_keys attrs) as [[key val]|]; [|done].
  cbn [fst]. split.
  - apply wf_heap_alloc; [done|]. by eapply lookup_lt_Some.
  - rewrite length_app. lia.
Qed.

Lemma exit_keeps self exc : keeps_wf (__exit__ self exc).
Proof.
  destruct exc; [by apply keeps_wf_unchanged|].
  apply assert_no_other_keys_keeps.
Qed.

Lemma with_keeps {A} mgr (body : loc → M A) :
  (∀ l, keeps_wf (body l)) → keeps_wf (with_ mgr body).
Proof.
  intros Hbody h Hwf.
  unfold with_, leave, __enter__, mbind, M_bind, bind, ret, raise.
  destruct (Hbody mgr h Hwf) as [Hwf1 Hlen1].
  destruct (body mgr h) as [h1 [a|e|]]; cbn [fst] in *; [| |done].
  - destruct (exit_keeps mgr None h1 Hwf1) as [Hwf2 Hlen2].
    destruct (__exit__ mgr None h1) as [h2 [[]|e|]]; cbn [fst] in *;
      (split; [done | lia]).
  - destruct (exit_keeps mgr (Some e) h1 Hwf1) as [Hwf2 Hlen2].
    destruct (__exit__ mgr (Some e) h1) as [h2 [[]|e'|]]; cbn [fst] in *;
      (split; [done | lia]).
Qed.

(** X7: every method that makes or changes a walker keeps the store well
    formed (a walker refers only to a parent made before it, so the parents
    of a walker never form a cycle) and forgets no walker; the loops and
    the [with] statement do so when their bodies do. *)
Theorem store_stays_well_formed :
  (∀ root, keeps_wf (Walker_init root))
  ∧ (∀ self ctx, keeps_wf (set_custom_context self ctx))
  ∧ (∀ self x, keeps_wf (default_to self x))
  ∧ (∀ self typ msg default, keeps_wf (as_type self typ msg default))
  ∧ (∀ self, keeps_wf (enter_object self))
  ∧ (∀ self key, keeps_wf (__getitem__ self key))
  ∧ (∀ self, keeps_wf (assert_no_other_keys self))
  ∧ (∀ self exc, keeps_wf (__exit__ self exc))
  ∧ (∀ self body, (∀ l, keeps_wf (body l)) → keeps_wf (array_values self body))
  ∧ (∀ self body,
       (∀ key l, keeps_wf (body key l)) → keeps_wf (object_items self body))
  ∧ (∀ self body, (∀ l, keeps_wf (body l)) → keeps_wf (object_values self body))
  ∧ (∀ A mgr (body : loc → M A),
       (∀ l, keeps_wf (body l)) → keeps_wf (with_ mgr body)).
Proof.
  split_and!.
  - intros root h Hwf. by apply keeps_wf_alloc.
  - apply set_custom_context_keeps.
  - apply default_to_keeps.
  - intros self typ msg default. apply keeps_wf_unchanged.
    apply as_type_unchanged.
  - apply enter_object_keeps.
  - apply getitem_keeps.
  - apply assert_no_other_keys_keeps.
  - apply exit_keeps.
  - apply array_values_keeps.
  - apply object_items_keeps.
  - intros self body Hbody. by apply object_items_keeps.
  - intros A. apply with_keeps.
Qed.

Lemma store_stays_well_formed_witness :
  wf_heap (test_complex_context []).1.
Proof.
  destruct store_stays_well_formed
    as (Hinit & _ & _ & Has & _ & _ & _ & _ & Harray & Hitems & _).
  assert (∀ l, keeps_wf (fun h => (as_int l None;; ret tt) h)) as Hint.
  { intros l. apply keeps_wf_bind; [apply Has|].
    intros _. by apply keeps_wf_unchanged. }
  assert (keeps_wf test_complex_context) as Hkeeps.
  { apply keeps_wf_bind; [apply Hinit|]. intros w. apply Hitems.
    intros key val. apply keeps_wf_bind.
    - by apply keeps_wf_unchanged; intros h; unfold is_array, mbind, M_bind,
        bind, deref; destruct (h !! val).
    - intros [|]; [apply Harray|]; apply Hint. }
  exact (proj1 (Hkeeps [] wf_heap_nil)).
Defined.

(** ** The text of an error, in general *)

(** X8: in a well-formed store the loop of [WalkerError.__str__] ends, for
    an error on any walker of the store, and the text is made of the
    walkers from the root down to that walker: for each its annotation and
    then its fragment, nothing between them, then a colon, a space and the
    message.  When no walker on the way has an annotation the text is the
    fragments, root first. *)
Theorem error_text unicode_isalnum h l w msg :
  wf_heap h →
  h !! l = Some w →
  ∃ ws,
    chain h (Some l) (w :: ws)
    ∧ __str__ unicode_isalnum h (WalkerError l msg)
      = Some (String.concat EmptyString
                ((fun a => custom_context a +:+ context unicode_isalnum a)
                   <$> reverse (w :: ws))
              +:+ ": " +:+ msg)
    ∧ (Forall (fun a => custom_context a = EmptyString) (w :: ws) →
       __str__ unicode_isalnum h (WalkerError l msg)
       = Some (String.concat EmptyString
                 (context unicode_isalnum <$> reverse (w :: ws))
               +:+ ": " +:+ msg)).
Proof.
  intros Hwf Hw.
  destruct (WalkerError_str_total unicode_isalnum h l w msg Hwf Hw)
    as (ws & Hch & Hstr).
  exists ws. split_and!; [done..|].
  intros Hplain. rewrite Hstr. unfold code_rendering, code_path.
  do 3 f_equal. apply Forall_fmap_ext, Forall_reverse.
  eapply Forall_impl; [exact Hplain|]. intros a Ha. cbn. by rewrite Ha.
Qed.

Lemma error_text_witness :
  let root := mk_walker Walker (VList [VNone]) None "" in
  let item := mk_walker (WalkerInArray 0) VNone (Some 0%nat) "" in
  __str__ latin1_isalnum [root; item] (WalkerError 1%nat "Expected an integer")
  = Some "root[0]: Expected an integer".
Proof.
  intros root item.
  assert (wf_heap [root; item]) as Hwf.
  { intros [|[|l]] w' Hl; cbn in Hl; simplify_eq; cbn; lia. }
  destruct (error_text latin1_isalnum [root; item] 1%nat item
              "Expected an integer" Hwf eq_refl) as (ws & Hch & _ & Hplain).
  assert (item :: ws = [item; root]) as Hws.
  { apply (chain_functional _ _ (item :: ws) Hch).
    repeat (econstructor; [reflexivity|]). constructor. }
  injection Hws as ->.
  apply Hplain. by repeat constructor.
Defined.

(** ** [array_values] *)

Lemma array_walkers_app self i ary1 ary2 :
  array_walkers self i (ary1 ++ ary2)
  = array_walkers self i ary1
    ++ array_walkers self (i + Z.of_nat (List.length ary1)) ary2.
Proof.
  revert i. induction ary1 as [|o ary1 IH]; intros i; cbn [array_walkers app].
  - by rewrite Z.add_0_r.
  - rewrite IH. do 3 f_equal. cbn [List.length]. lia.
Qed.

Lemma array_walkers_length self i ary :
  List.length (array_walkers self i ary) = List.length ary.
Proof. revert i. induction ary as [|o ary IH]; intros i; cbn; by rewrite ?IH. Qed.

Lemma array_walkers_lookup self i ary (k : nat) :
  array_walkers self i ary !! k
  = (fun o => mk_walker (WalkerInArray (i + Z.of_nat k)) o (Some self) "")
      <$> ary !! k.
Proof.
  revert i k. induction ary as [|o ary IH]; intros i [|k]; cbn; [done..| |].
  - by rewrite Z.add_0_r.
  - rewrite IH. destruct (ary !! k); cbn; [|done]. do 3 f_equal. lia.
Qed.

Lemma wf_heap_array_walkers h self i ary :
  wf_heap h → (self < List.length h)%nat →
  wf_heap (h ++ array_walkers self i ary).
Proof.
  revert h i. induction ary as [|o ary IH]; intros h i Hwf Hself; cbn.
  - by rewrite app_nil_r.
  - rewrite cons_middle, app_assoc. apply IH.
    + by apply wf_heap_alloc.
    + rewrite length_app. cbn. lia.
Qed.

(** A loop whose body returns on every walker makes all the walkers. *)
Lemma enumerate_all self (body : loc → M unit) (P : walker → Prop) :
  (∀ h c, P c → body (List.length h) (h ++ [c]) = (h ++ [c], Return tt)) →
  ∀ ary i h,
  Forall P (array_walkers self i ary) →
  enumerate self i ary body h = (h ++ array_walkers self i ary, Return tt).
Proof.
  intros Hbody ary. induction ary as [|o ary IH]; intros i h Hall.
  - cbn. by rewrite app_nil_r.
  - cbn [enumerate array_walkers] in *.
    apply Forall_cons in Hall as [Ho Hall].
    unfold mbind, M_bind, bind, WalkerInArray_init, alloc.
    rewrite Hbody by done. rewrite IH by done.
    by rewrite <- app_assoc.
Qed.

(** A loop whose body raises on a walker stops there. *)
Lemma enumerate_until self (body : loc → M unit) (P : walker → Prop) e :
  (∀ h c, P c → body (List.length h) (h ++ [c]) = (h ++ [c], Return tt)) →
  ∀ good i h bad rest,
  Forall P (array_walkers self i good) →
  (∀ h c, c = mk_walker (WalkerInArray (i + Z.of_nat (List.length good))) bad
                (Some self) "" →
     body (List.length h) (h ++ [c]) = (h ++ [c], Raise (e (List.length h)))) →
  enumerate self i (good ++ bad :: rest) body h
  = (h ++ array_walkers self i (good ++ [bad]),
     Raise (e (List.length h + List.length good)%nat)).
Proof.
  intros Hbody good. induction good as [|o good IH]; intros i h bad rest Hall Hbad.
  - cbn [enumerate array_walkers app List.length] in *.
    unfold mbind, M_bind, bind, WalkerInArray_init, alloc.
    rewrite Hbad by (by rewrite Z.add_0_r). by rewrite Nat.add_0_r.
  - cbn [enumerate array_walkers app] in *.
    apply Forall_cons in Hall as [Ho Hall].
    unfold mbind, M_bind, bind, WalkerInArray_init, alloc.
    rewrite Hbody by done.
    rewrite (IH (i + 1) _ bad rest Hall).
    + rewrite <- app_assoc, length_app. cbn [List.length app].
      do 3 f_equal. lia.
    + intros h' c ->. apply Hbad. do 2 f_equal. cbn [List.length]. lia.
Qed.

Lemma array_values_run h self w body :
  h !! self = Some w →
  array_values self body h
  = match obj w with
    | VList elements => enumerate self 0 elements body h
    | MissingValue => (h, Raise (WalkerError self "Mandatory key is missing"))
    | _ => (h, Raise (WalkerError self "Expected an array"))
    end.
Proof.
  intros Hw. unfold array_values, mbind, M_bind, bind.
  rewrite (as_type_run h self w) by done. unfold extraction_contract.
  by destruct (obj w).
Qed.

(** The rule of the loop: a property of the store that holds before the
    loop and that the body keeps, from each element to the next, holds
    after it; a body that raises ends the loop. *)
Lemma enumerate_rule self (body : loc → M unit)
    (I : nat → list walker → Prop) (Q : exn → list walker → Prop) :
  ∀ ary (n : nat) h,
  I n h →
  (∀ (k : nat) o h1, ary !! k = Some o → I (n + k)%nat h1 →
     match body (List.length h1)
             (h1 ++ [mk_walker (WalkerInArray (Z.of_nat (n + k))) o (Some self) ""])
     with
     | (h2, Return _) => I (S (n + k)) h2
     | (h2, Raise e) => Q e h2
     | (_, Stuck) => False
     end) →
  match enumerate self (Z.of_nat n) ary body h with
  | (h', Return _) => I (n + List.length ary)%nat h'
  | (h', Raise e) => Q e h'
  | (_, Stuck) => False
  end.
Proof.
  intros ary. induction ary as [|o ary IH]; intros n h HI Hbody.
  - cbn. by rewrite Nat.add_0_r.
  - cbn [enumerate]. unfold mbind, M_bind, bind, WalkerInArray_init, alloc.
    pose proof (Hbody 0%nat o h eq_refl) as Hb.
    rewrite Nat.add_0_r in Hb. specialize (Hb HI).
    destruct (body _ _) as [h2 [[]|e|]]; [|done..].
    replace (Z.of_nat n + 1) with (Z.of_nat (S n)) by lia.
    replace (n + List.length (o :: ary))%nat with (S n + List.length ary)%nat
      by (cbn [List.length]; lia).
    apply IH; [done|]. intros k o' h1 Hk HI1.
    specialize (Hbody (S k) o' h1 Hk).
    replace (n + S k)%nat with (S n + k)%nat in Hbody by lia.
    by apply Hbody.
Qed.

Lemma array_walkers_take self ary (k : nat) o :
  ary !! k = Some o →
  array_walkers self 0 (take (S k) ary)
  = array_walkers self 0 (take k ary)
    ++ [mk_walker (WalkerInArray (Z.of_nat k)) o (Some self) ""].
Proof.
  intros Hk. rewrite (take_S_r _ _ _ Hk), array_walkers_app.
  rewrite length_take_le by (apply lookup_lt_Some in Hk; lia).
  by rewrite Z.add_0_l.
Qed.

(** X9: a loop over [array_values] raises on a walker that holds no array,
    "Mandatory key is missing" when it is missing and "Expected an array" otherwise, before
    the body runs and with the store as it was.  On an array the body runs
    once for each element, in the order of the array, each time on a fresh
    walker that holds the element, with its index counted from 0, the
    iterated walker as parent and no annotation, in the store the body
    left the time before; the loop ends when the body raises, with that
    exception, and otherwise returns after the last element.  So for any
    body, whatever it does to the store: a property of the store that
    holds before the loop and that the body keeps from element to element
    holds after the loop, and what holds whenever the body raises holds
    when the loop raises.  With a body that leaves the store as it is, the
    loop leaves behind one walker for each element, in order.  An empty
    array makes none. *)
Theorem array_values_yields h self w body :
  h !! self = Some w →
  (isinstance (obj w) Tlist = false →
     array_values self body h
     = (h, Raise (WalkerError self
                    (if isinstance (obj w) TMissingValue
                     then "Mandatory key is missing" else "Expected an array"))))
  ∧ (∀ elements (I : nat → list walker → Prop) (Q : exn → list walker → Prop),
     obj w = VList elements →
     I 0%nat h →
     (∀ (k : nat) o h1, elements !! k = Some o → I k h1 →
        match body (List.length h1)
                (h1 ++ [mk_walker (WalkerInArray (Z.of_nat k)) o (Some self) ""])
        with
        | (h2, Return _) => I (S k) h2
        | (h2, Raise e) => Q e h2
        | (_, Stuck) => False
        end) →
     match array_values self body h with
     | (h', Return _) => I (List.length elements) h'
     | (h', Raise e) => Q e h'
     | (_, Stuck) => False
     end)
  ∧ (∀ elements, obj w = VList elements →
     (∀ (k : nat) o, elements !! k = Some o →
        let h1 := h ++ array_walkers self 0 (take k elements) in
        let c := mk_walker (WalkerInArray (Z.of_nat k)) o (Some self) "" in
        body (List.length h1) (h1 ++ [c]) = (h1 ++ [c], Return tt)) →
     ∃ made,
       array_values self body h = (h ++ made, Return tt)
       ∧ List.length made = List.length elements
       ∧ ∀ k : nat,
           made !! k
           = (fun o => mk_walker (WalkerInArray (Z.of_nat k)) o (Some self) "")
               <$> elements !! k)
  ∧ (obj w = VList [] → array_values self body h = (h, Return tt)).
Proof.
  intros Hw. rewrite (array_values_run h self w) by done.
  assert (Hrule : ∀ elements (I : nat → list walker → Prop)
                    (Q : exn → list walker → Prop),
     I 0%nat h →
     (∀ (k : nat) o h1, elements !! k = Some o → I k h1 →
        match body (List.length h1)
                (h1 ++ [mk_walker (WalkerInArray (Z.of_nat k)) o (Some self) ""])
        with
        | (h2, Return _) => I (S k) h2
        | (h2, Raise e) => Q e h2
        | (_, Stuck) => False
        end) →
     match enumerate self 0 elements body h with
     | (h', Return _) => I (List.length elements) h'
     | (h', Raise e) => Q e h'
     | (_, Stuck) => False
     end).
  { intros elements I Q HI Hbody.
    exact (enumerate_rule self body I Q elements 0%nat h HI Hbody). }
  split_and!.
  - intros Hlist. by destruct (obj w).
  - intros elements I Q ->. apply Hrule.
  - intros elements -> Hbody. exists (array_walkers self 0 elements).
    split_and!.
    + pose proof (Hrule elements
        (fun k h1 => h1 = h ++ array_walkers self 0 (take k elements))
        (fun _ _ => False)) as Hloop.
      cbv beta in Hloop.
      destruct (enumerate self 0 elements body h) as [h' [[]|e|]].
      * rewrite Hloop, firstn_all; [done | by rewrite app_nil_r |].
        intros k o h1 Hk ->. rewrite (Hbody k o Hk).
        by rewrite (array_walkers_take _ _ _ _ Hk), app_assoc.
      * exfalso. apply Hloop; [by rewrite app_nil_r|].
        intros k o h1 Hk ->. rewrite (Hbody k o Hk).
        by rewrite (array_walkers_take _ _ _ _ Hk), app_assoc.
      * exfalso. apply Hloop; [by rewrite app_nil_r|].
        intros k o h1 Hk ->. rewrite (Hbody k o Hk).
        by rewrite (array_walkers_take _ _ _ _ Hk), app_assoc.
    + apply array_walkers_length.
    + intros k. by rewrite array_walkers_lookup.
  - by intros ->.
Qed.

Lemma array_values_yields_witness :
  let h := [mk_walker Walker (VList [VInt 5; VStr "six"]) None ""] in
  array_values 0%nat (fun v => set_custom_context v "@") h
  = (h ++ [mk_walker (WalkerInArray 0) (VInt 5) (Some 0%nat) "@";
           mk_walker (WalkerInArray 1) (VStr "six") (Some 0%nat) "@"],
     Return tt)
  ∧ ∃ made,
      array_values 0%nat (fun v => is_int v;; ret tt) h = (h ++ made, Return tt)
      ∧ List.length made = 2%nat
      ∧ ∀ k : nat,
          made !! k
          = (fun o => mk_walker (WalkerInArray (Z.of_nat k)) o (Some 0%nat) "")
              <$> [VInt 5; VStr "six"] !! k.
Proof.
  intros h. split.
  - pose proof (proj1 (proj2 (array_values_yields h 0%nat
        (mk_walker Walker (VList [VInt 5; VStr "six"]) None "")
        (fun v => set_custom_context v "@") eq_refl))
        [VInt 5; VStr "six"]
        (fun k h1 =>
           h1 = h ++ take k [mk_walker (WalkerInArray 0) (VInt 5) (Some 0%nat) "@";
                             mk_walker (WalkerInArray 1) (VStr "six") (Some 0%nat) "@"])
        (fun _ _ => False) eq_refl eq_refl) as Hloop.
    cbv beta in Hloop.
    assert (∀ (k : nat) o h1, [VInt 5; VStr "six"] !! k = Some o →
      h1 = h ++ take k [mk_walker (WalkerInArray 0) (VInt 5) (Some 0%nat) "@";
                        mk_walker (WalkerInArray 1) (VStr "six") (Some 0%nat) "@"] →
      match set_custom_context (List.length h1) "@"
              (h1 ++ [mk_walker (WalkerInArray (Z.of_nat k)) o (Some 0%nat) ""])
      with
      | (h2, Return _) =>
          h2 = h ++ take (S k)
                      [mk_walker (WalkerInArray 0) (VInt 5) (Some 0%nat) "@";
                       mk_walker (WalkerInArray 1) (VStr "six") (Some 0%nat) "@"]
      | (h2, Raise e) => False
      | (_, Stuck) => False
      end) as Hbody.
    { intros [|[|k]] o h1 Hk ->; cbn in Hk; simplify_eq; reflexivity. }
    specialize (Hloop Hbody).
    destruct (array_values 0%nat (fun v => set_custom_context v "@") h)
      as [h' [[]|e|]]; [by rewrite Hloop | done..].
  - apply (proj1 (proj2 (proj2 (array_values_yields h 0%nat
        (mk_walker Walker (VList [VInt 5; VStr "six"]) None "")
        (fun v => is_int v;; ret tt) eq_refl)))
        [VInt 5; VStr "six"] eq_refl).
    intros [|[|k]] o Hk; cbn in Hk; simplify_eq; reflexivity.
Defined.

Lemma as_type_fresh h c typ msg :
  (as_type (List.length h) typ msg None;; ret tt) (h ++ [c])
  = (h ++ [c],
     match extraction_contract (List.length h) (obj c) typ msg None with
     | Return _ => Return tt
     | Raise e => Raise e
     | Stuck => Stuck
     end).
Proof.
  unfold mbind, M_bind, bind.
  rewrite (as_type_run (h ++ [c]) (List.length h) c)
    by (by rewrite lookup_app_r, Nat.sub_diag).
  by destruct (extraction_contract _ _ _ _ _).
Qed.

(** X10: a loop that reads every element of an array as one type,
    [for v in w.array_values(): v.as_int()] and the like, returns when
    every element is of the type.  Otherwise it stops at the first element
    that is not: it raises the mismatch error on the walker of that
    element, makes no walker for the elements after it, and the text of the
    error is the path of the array, the index of the element between square
    brackets, a colon and the message. *)
Theorem array_values_first_mismatch unicode_isalnum h self w typ msg :
  h !! self = Some w →
  let read := fun v : loc => as_type v typ msg None;; ret tt in
  (∀ elements, obj w = VList elements →
     Forall (fun o => isinstance o typ = true) elements →
     array_values self read h = (h ++ array_walkers self 0 elements, Return tt))
  ∧ (∀ good bad rest, obj w = VList (good ++ bad :: rest) →
     Forall (fun o => isinstance o typ = true) good →
     isinstance bad typ = false →
     isinstance bad TMissingValue = false →
     let h' := h ++ array_walkers self 0 (good ++ [bad]) in
     let l := (List.length h + List.length good)%nat in
     array_values self read h = (h', Raise (WalkerError l msg))
     ∧ List.length h' = S l
     ∧ ∀ ws, wf_heap h → chain h (Some self) ws →
         __str__ unicode_isalnum h' (WalkerError l msg)
         = Some (code_path unicode_isalnum ws
                 +:+ "[" +:+ pretty (Z.of_nat (List.length good)) +:+ "]"
                 +:+ ": " +:+ msg)).
Proof.
  intros Hw read. rewrite (array_values_run h self w) by done.
  assert (Hgood : ∀ h0 c, isinstance (obj c) typ = true →
    read (List.length h0) (h0 ++ [c]) = (h0 ++ [c], Return tt)).
  { intros h0 c Hc. subst read. cbv beta. rewrite as_type_fresh.
    unfold extraction_contract. by rewrite Hc. }
  assert (Hwalkers : ∀ i elements,
    Forall (fun o => isinstance o typ = true) elements →
    Forall (fun c => isinstance (obj c) typ = true) (array_walkers self i elements)).
  { intros i elements. revert i.
    induction elements as [|o elements IH]; intros i Hall; cbn; [done|].
    apply Forall_cons in Hall as [Ho Hall]. constructor; auto. }
  split.
  - intros elements -> Hall.
    apply (enumerate_all self read _ Hgood). by apply Hwalkers.
  - intros good bad rest -> Hall Hbad Hpresent h' l.
    split_and!.
    + apply (enumerate_until self read _ (fun l => WalkerError l msg) Hgood).
      * by apply Hwalkers.
      * intros h0 c ->. subst read. cbv beta. rewrite as_type_fresh.
        unfold extraction_contract. cbn [obj]. by rewrite Hbad, Hpresent.
    + subst h' l. rewrite length_app, array_walkers_length, length_app.
      cbn. lia.
    + intros ws Hwf Hch. subst h' l.
      assert (self < List.length h)%nat as Hself by by eapply lookup_lt_Some.
      rewrite array_walkers_app, app_assoc, Z.add_0_l. cbn [array_walkers].
      rewrite <- (array_walkers_length self 0 good), <- length_app.
      rewrite (str_of_fresh_child unicode_isalnum _ self _ ws); try done.
      * cbn [context class_of]. unfold WalkerInArray_context.
        by rewrite !append_assoc.
      * by apply wf_heap_array_walkers.
      * by apply chain_app.
Qed.

Lemma array_values_first_mismatch_witness :
  let h := [mk_walker Walker (VList [VInt 1; VNone; VInt 3]) None ""] in
  let read := fun v : loc => as_int v None;; ret tt in
  array_values 0%nat read h
  = (h ++ array_walkers 0%nat 0 [VInt 1; VNone],
     Raise (WalkerError 2%nat "Expected an integer"))
  ∧ __str__ latin1_isalnum (h ++ array_walkers 0%nat 0 [VInt 1; VNone])
      (WalkerError 2%nat "Expected an integer")
    = Some "root[1]: Expected an integer".
Proof.
  intros h read.
  destruct (array_values_first_mismatch latin1_isalnum h 0%nat
              (mk_walker Walker (VList [VInt 1; VNone; VInt 3]) None "")
              Tint "Expected an integer" eq_refl) as [_ Hfirst].
  destruct (Hfirst [VInt 1] VNone [VInt 3] eq_refl
              ltac:(by repeat constructor) eq_refl eq_refl)
    as (Hrun & _ & Htext).
  split; [exact Hrun|].
  apply (Htext [mk_walker Walker (VList [VInt 1; VNone; VInt 3]) None ""]).
  - intros [|l] w' Hl; cbn in Hl; simplify_eq; cbn; lia.
  - repeat (econstructor; [reflexivity|]). constructor.
Defined.

(** ** [object_items] and [object_values] *)

Lemma object_items_run h self w body :
  h !! self = Some w →
  object_items self body h
  = match obj w with
    | VDict attrs => items self attrs body h
    | MissingValue => (h, Raise (WalkerError self "Mandatory key is missing"))
    | _ => (h, Raise (WalkerError self "Expected an object"))
    end.
Proof.
  intros Hw. unfold object_items, mbind, M_bind, bind.
  rewrite (as_type_run h self w) by done. unfold extraction_contract.
  by destruct (obj w).
Qed.

Lemma wf_heap_object_walkers h self dct :
  wf_heap h → (self < List.length h)%nat →
  wf_heap (h ++ object_walkers self dct).
Proof.
  revert h. induction dct as [|kv dct IH]; intros h Hwf Hself; cbn.
  - by rewrite app_nil_r.
  - rewrite cons_middle, app_assoc. apply IH.
    + by apply wf_heap_alloc.
    + rewrite length_app. cbn. lia.
Qed.

Lemma items_all self (body : string → loc → M unit) (P : walker → Prop) :
  (∀ key h c, P c → body key (List.length h) (h ++ [c]) = (h ++ [c], Return tt)) →
  ∀ dct h,
  Forall P (object_walkers self dct) →
  items self dct body h = (h ++ object_walkers self dct, Return tt).
Proof.
  intros Hbody dct. induction dct as [|[key o] dct IH]; intros h Hall.
  - cbn. by rewrite app_nil_r.
  - cbn [items]. change (object_walkers self ((key, o) :: dct))
      with (mk_walker (WalkerInObject key) o (Some self) ""
            :: object_walkers self dct) in *.
    apply Forall_cons in Hall as [Ho Hall].
    unfold mbind, M_bind, bind, WalkerInObject_init, alloc.
    rewrite Hbody by done. rewrite IH by done.
    by rewrite <- app_assoc.
Qed.

Lemma items_until self (body : string → loc → M unit) (P : walker → Prop) e :
  (∀ key h c, P c → body key (List.length h) (h ++ [c]) = (h ++ [c], Return tt)) →
  ∀ good h key bad rest,
  Forall P (object_walkers self good) →
  (∀ h, body key (List.length h)
          (h ++ [mk_walker (WalkerInObject key) bad (Some self) ""])
        = (h ++ [mk_walker (WalkerInObject key) bad (Some self) ""],
           Raise (e (List.length h)))) →
  items self (good ++ (key, bad) :: rest) body h
  = (h ++ object_walkers self (good ++ [(key, bad)]),
     Raise (e (List.length h + List.length good)%nat)).
Proof.
  intros Hbody good. induction good as [|[k o] good IH];
    intros h key bad rest Hall Hbad.
  - cbn [items app List.length].
    unfold mbind, M_bind, bind, WalkerInObject_init, alloc.
    rewrite Hbad. by rewrite Nat.add_0_r.
  - cbn [items app].
    change (object_walkers self ((k, o) :: good))
      with (mk_walker (WalkerInObject k) o (Some self) ""
            :: object_walkers self good) in Hall.
    apply Forall_cons in Hall as [Ho Hall].
    unfold mbind, M_bind, bind, WalkerInObject_init, alloc.
    rewrite Hbody by done.
    rewrite (IH _ key bad rest Hall Hbad).
    rewrite <- app_assoc, length_app. cbn [List.length app].
    do 3 f_equal. lia.
Qed.

(** The rule of the loop over the attributes of an object. *)
Lemma items_rule self (body : string → loc → M unit)
    (I : nat → list walker → Prop) (Q : exn → list walker → Prop) :
  ∀ dct (n : nat) h,
  I n h →
  (∀ (k : nat) key o h1, dct !! k = Some (key, o) → I (n + k)%nat h1 →
     match body key (List.length h1)
             (h1 ++ [mk_walker (WalkerInObject key) o (Some self) ""])
     with
     | (h2, Return _) => I (S (n + k)) h2
     | (h2, Raise e) => Q e h2
     | (_, Stuck) => False
     end) →
  match items self dct body h with
  | (h', Return _) => I (n + List.length dct)%nat h'
  | (h', Raise e) => Q e h'
  | (_, Stuck) => False
  end.
Proof.
  intros dct. induction dct as [|[key o] dct IH]; intros n h HI Hbody.
  - cbn. by rewrite Nat.add_0_r.
  - cbn [items]. unfold mbind, M_bind, bind, WalkerInObject_init, alloc.
    pose proof (Hbody 0%nat key o h eq_refl) as Hb.
    rewrite Nat.add_0_r in Hb. specialize (Hb HI).
    destruct (body _ _ _) as [h2 [[]|e|]]; [|done..].
    replace (n + List.length ((key, o) :: dct))%nat
      with (S n + List.length dct)%nat by (cbn [List.length]; lia).
    apply IH; [done|]. intros k key' o' h1 Hk HI1.
    specialize (Hbody (S k) key' o' h1 Hk).
    replace (n + S k)%nat with (S n + k)%nat in Hbody by lia.
    by apply Hbody.
Qed.

Lemma object_walkers_take self dct (k : nat) key o :
  dct !! k = Some (key, o) →
  object_walkers self (take (S k) dct)
  = object_walkers self (take k dct)
    ++ [mk_walker (WalkerInObject key) o (Some self) ""].
Proof.
  intros Hk. unfold object_walkers.
  by rewrite (take_S_r _ _ _ Hk), fmap_app.
Qed.

(** A body that leaves the store as it is leaves behind the walkers of the
    loop. *)
Lemma items_unchanged self (body : string → loc → M unit) h dct :
  (∀ (k : nat) key o, dct !! k = Some (key, o) →
     let h1 := h ++ object_walkers self (take k dct) in
     let c := mk_walker (WalkerInObject key) o (Some self) "" in
     body key (List.length h1) (h1 ++ [c]) = (h1 ++ [c], Return tt)) →
  items self dct body h = (h ++ object_walkers self dct, Return tt).
Proof.
  intros Hbody.
  assert (∀ (k : nat) key o h1, dct !! k = Some (key, o) →
    h1 = h ++ object_walkers self (take k dct) →
    match body key (List.length h1)
            (h1 ++ [mk_walker (WalkerInObject key) o (Some self) ""])
    with
    | (h2, Return _) => h2 = h ++ object_walkers self (take (S k) dct)
    | (h2, Raise e) => False
    | (_, Stuck) => False
    end) as Hstep.
  { intros k key o h1 Hk ->. rewrite (Hbody k key o Hk).
    by rewrite (object_walkers_take _ _ _ _ _ Hk), app_assoc. }
  pose proof (items_rule self body
    (fun k h1 => h1 = h ++ object_walkers self (take k dct))
    (fun _ _ => False) dct 0%nat h) as Hloop.
  cbv beta in Hloop.
  specialize (Hloop ltac:(by rewrite app_nil_r) Hstep).
  cbn [Nat.add] in Hloop.
  destruct (items self dct body h) as [h' [[]|e|]]; [|done..].
  by rewrite Hloop, firstn_all.
Qed.

(** X11: a loop over [object_items] or [object_values] raises on a walker
    that holds no object, "Mandatory key is missing" when it is missing and
    "Expected an object" otherwise, before the body runs and with the store as it was.
    On an object the body runs once for each attribute, in the order of the
    object, each time on a fresh [WalkerInObject] on the value of the
    attribute, with its key, the iterated walker as parent and no
    annotation, in the store the body left the time before ([object_items]
    gives the body the key as well); the loop ends when the body raises,
    with that exception, and otherwise returns after the last attribute.
    So for any body, whatever it does to the store: a property of the store
    that holds before the loop and that the body keeps from attribute to
    attribute holds after the loop, and what holds whenever the body raises
    holds when the loop raises.  With bodies that leave the store as it is,
    both loops leave behind the same walkers, one for each attribute, in
    order. *)
Theorem object_items_yields h self w :
  h !! self = Some w →
  (isinstance (obj w) Tdict = false →
     ∀ body body',
       let e := Raise (WalkerError self
                         (if isinstance (obj w) TMissingValue
                          then "Mandatory key is missing" else "Expected an object")) in
       object_items self body h = (h, e)
       ∧ object_values self body' h = (h, e))
  ∧ (∀ attrs body (I : nat → list walker → Prop) (Q : exn → list walker → Prop),
     obj w = VDict attrs →
     I 0%nat h →
     (∀ (k : nat) key o h1, attrs !! k = Some (key, o) → I k h1 →
        match body key (List.length h1)
                (h1 ++ [mk_walker (WalkerInObject key) o (Some self) ""])
        with
        | (h2, Return _) => I (S k) h2
        | (h2, Raise e) => Q e h2
        | (_, Stuck) => False
        end) →
     match object_items self body h with
     | (h', Return _) => I (List.length attrs) h'
     | (h', Raise e) => Q e h'
     | (_, Stuck) => False
     end)
  ∧ (∀ attrs body' (I : nat → list walker → Prop) (Q : exn → list walker → Prop),
     obj w = VDict attrs →
     I 0%nat h →
     (∀ (k : nat) key o h1, attrs !! k = Some (key, o) → I k h1 →
        match body' (List.length h1)
                (h1 ++ [mk_walker (WalkerInObject key) o (Some self) ""])
        with
        | (h2, Return _) => I (S k) h2
        | (h2, Raise e) => Q e h2
        | (_, Stuck) => False
        end) →
     match object_values self body' h with
     | (h', Return _) => I (List.length attrs) h'
     | (h', Raise e) => Q e h'
     | (_, Stuck) => False
     end)
  ∧ (∀ attrs, obj w = VDict attrs →
     ∀ body body',
       (∀ (k : nat) key o, attrs !! k = Some (key, o) →
          let h1 := h ++ object_walkers self (take k attrs) in
          let c := mk_walker (WalkerInObject key) o (Some self) "" in
          body key (List.length h1) (h1 ++ [c]) = (h1 ++ [c], Return tt)
          ∧ body' (List.length h1) (h1 ++ [c]) = (h1 ++ [c], Return tt)) →
       let made :=
         (fun kv : string * value =>
            mk_walker (WalkerInObject kv.1) kv.2 (Some self) "") <$> attrs in
       object_items self body h = (h ++ made, Return tt)
       ∧ object_values self body' h = (h ++ made, Return tt)).
Proof.
  intros Hw. unfold object_values. split_and!.
  - intros Hdict body body'. cbv zeta.
    rewrite !(object_items_run h self w) by done. by destruct (obj w).
  - intros attrs body I Q Hobj HI Hbody.
    rewrite (object_items_run h self w) by done. rewrite Hobj.
    exact (items_rule self body I Q attrs 0%nat h HI Hbody).
  - intros attrs body' I Q Hobj HI Hbody.
    rewrite (object_items_run h self w) by done. rewrite Hobj.
    exact (items_rule self (fun _ => body') I Q attrs 0%nat h HI Hbody).
  - intros attrs Hobj body body' Hbody. cbv zeta.
    rewrite !(object_items_run h self w) by done. rewrite Hobj. split.
    + apply items_unchanged. intros k key o Hk. apply (Hbody k key o Hk).
    + apply (items_unchanged self (fun _ => body')).
      intros k key o Hk. apply (Hbody k key o Hk).
Qed.

Lemma object_items_yields_witness :
  let h := [mk_walker Walker (VDict [("one", VInt 1); ("two", VStr "dva")]) None ""] in
  let h1 := h ++ [mk_walker (WalkerInArray 0) (VInt 1) (Some 0%nat) ""] in
  object_items 0%nat (fun key v => set_custom_context v key) h
  = (h ++ [mk_walker (WalkerInObject "one") (VInt 1) (Some 0%nat) "one";
           mk_walker (WalkerInObject "two") (VStr "dva") (Some 0%nat) "two"],
     Return tt)
  ∧ object_values 0%nat (fun v => is_int v;; ret tt) h
    = (h ++ [mk_walker (WalkerInObject "one") (VInt 1) (Some 0%nat) "";
             mk_walker (WalkerInObject "two") (VStr "dva") (Some 0%nat) ""],
       Return tt)
  ∧ object_items 1%nat (fun _ => pass) h1
    = (h1, Raise (WalkerError 1%nat "Expected an object")).
Proof.
  intros h h1. split_and!.
  - pose proof (proj1 (proj2 (object_items_yields h 0%nat
        (mk_walker Walker (VDict [("one", VInt 1); ("two", VStr "dva")]) None "")
        eq_refl))
        [("one", VInt 1); ("two", VStr "dva")]
        (fun key v => set_custom_context v key)
        (fun k h1 =>
           h1 = h ++ take k
                  [mk_walker (WalkerInObject "one") (VInt 1) (Some 0%nat) "one";
                   mk_walker (WalkerInObject "two") (VStr "dva") (Some 0%nat) "two"])
        (fun _ _ => False) eq_refl eq_refl) as Hloop.
    cbv beta in Hloop.
    assert (∀ (k : nat) key o h1,
      [("one", VInt 1); ("two", VStr "dva")] !! k = Some (key, o) →
      h1 = h ++ take k
             [mk_walker (WalkerInObject "one") (VInt 1) (Some 0%nat) "one";
              mk_walker (WalkerInObject "two") (VStr "dva") (Some 0%nat) "two"] →
      match set_custom_context (List.length h1) key
              (h1 ++ [mk_walker (WalkerInObject key) o (Some 0%nat) ""])
      with
      | (h2, Return _) =>
          h2 = h ++ take (S k)
                 [mk_walker (WalkerInObject "one") (VInt 1) (Some 0%nat) "one";
                  mk_walker (WalkerInObject "two") (VStr "dva") (Some 0%nat) "two"]
      | (h2, Raise e) => False
      | (_, Stuck) => False
      end) as Hbody.
    { intros [|[|k]] key o h2 Hk ->; cbn in Hk; simplify_eq; reflexivity. }
    specialize (Hloop Hbody).
    destruct (object_items 0%nat (fun key v => set_custom_context v key) h)
      as [h' [[]|e|]]; [by rewrite Hloop | done..].
  - apply (proj2 (proj2 (proj2 (object_items_yields h 0%nat
        (mk_walker Walker (VDict [("one", VInt 1); ("two", VStr "dva")]) None "")
        eq_refl))) _ eq_refl
        (fun _ v => is_int v;; ret tt) (fun v => is_int v;; ret tt)
        ltac:(intros [|[|k]] key o Hk; cbn in Hk; simplify_eq; split; reflexivity)).
  - exact (proj1 (proj1 (object_items_yields h1 1%nat
             (mk_walker (WalkerInArray 0) (VInt 1) (Some 0%nat) "") eq_refl)
             eq_refl (fun _ => pass) pass)).
Defined.

(** X12: a loop that reads the value of every attribute of an object as one
    type, [for v in w.object_values(): v.as_int()] and the like, returns
    when every value is of the type.  Otherwise it stops at the first
    attribute, in the order of the object, whose value is not: it raises
    the mismatch error on the walker of that attribute, makes no walker for
    the attributes after it, and the text of the error is the path of the
    object, the fragment of the key of that attribute, a colon and the
    message. *)
Theorem object_values_first_mismatch unicode_isalnum h self w typ msg :
  h !! self = Some w →
  let read := fun v : loc => as_type v typ msg None;; ret tt in
  (∀ attrs, obj w = VDict attrs →
     Forall (fun kv : string * value => isinstance kv.2 typ = true) attrs →
     object_values self read h = (h ++ object_walkers self attrs, Return tt))
  ∧ (∀ good key bad rest, obj w = VDict (good ++ (key, bad) :: rest) →
     Forall (fun kv : string * value => isinstance kv.2 typ = true) good →
     isinstance bad typ = false →
     isinstance bad TMissingValue = false →
     let h' := h ++ object_walkers self (good ++ [(key, bad)]) in
     let l := (List.length h + List.length good)%nat in
     object_values self read h = (h', Raise (WalkerError l msg))
     ∧ ∀ ws, wf_heap h → chain h (Some self) ws →
         __str__ unicode_isalnum h' (WalkerError l msg)
         = Some (code_path unicode_isalnum ws
                 +:+ WalkerInObject_context unicode_isalnum key
                 +:+ ": " +:+ msg)).
Proof.
  intros Hw read. unfold object_values.
  rewrite (object_items_run h self w) by done.
  assert (Hgood : ∀ (key : string) h0 c, isinstance (obj c) typ = true →
    read (List.length h0) (h0 ++ [c]) = (h0 ++ [c], Return tt)).
  { intros _ h0 c Hc. subst read. cbv beta. rewrite as_type_fresh.
    unfold extraction_contract. by rewrite Hc. }
  assert (Hwalkers : ∀ attrs,
    Forall (fun kv : string * value => isinstance kv.2 typ = true) attrs →
    Forall (fun c => isinstance (obj c) typ = true) (object_walkers self attrs)).
  { intros attrs Hall. unfold object_walkers. by apply Forall_fmap. }
  split.
  - intros attrs -> Hall.
    apply (items_all self (fun _ => read) _ Hgood). by apply Hwalkers.
  - intros good key bad rest -> Hall Hbad Hpresent. cbv zeta. split.
    + apply (items_until self (fun _ => read) _ (fun l => WalkerError l msg) Hgood).
      * by apply Hwalkers.
      * intros h0. subst read. cbv beta. rewrite as_type_fresh.
        unfold extraction_contract. cbn [obj]. by rewrite Hbad, Hpresent.
    + intros ws Hwf Hch.
      assert (self < List.length h)%nat as Hself by by eapply lookup_lt_Some.
      unfold object_walkers. rewrite fmap_app, app_assoc. cbn [fmap list_fmap].
      replace (List.length h + List.length good)%nat
        with (List.length (h ++ object_walkers self good))
        by (unfold object_walkers; by rewrite length_app, length_fmap).
      rewrite (str_of_fresh_child unicode_isalnum _ self _ ws); try done.
      * by apply wf_heap_object_walkers.
      * by apply chain_app.
Qed.

Lemma object_values_first_mismatch_witness :
  let tree := VDict [("one", VInt 1); ("odd key", VStr "x"); ("three", VInt 3)] in
  let h := [mk_walker Walker tree None ""] in
  let read := fun v : loc => as_int v None;; ret tt in
  let h' := h ++ object_walkers 0%nat [("one", VInt 1); ("odd key", VStr "x")] in
  object_values 0%nat read h = (h', Raise (WalkerError 2%nat "Expected an integer"))
  ∧ __str__ latin1_isalnum h' (WalkerError 2%nat "Expected an integer")
    = Some ("root." +:+ String dquote ("odd key" +:+ String dquote EmptyString)
            +:+ ": Expected an integer").
Proof.
  intros tree h read h'.
  destruct (object_values_first_mismatch latin1_isalnum h 0%nat
              (mk_walker Walker tree None "") Tint "Expected an integer" eq_refl)
    as [_ Hfirst].
  destruct (Hfirst [("one", VInt 1)] "odd key" (VStr "x") [("three", VInt 3)]
              eq_refl ltac:(by repeat constructor) eq_refl eq_refl)
    as (Hrun & Htext).
  split; [exact Hrun|].
  apply (Htext [mk_walker Walker tree None ""]).
  - intros [|l] w' Hl; cbn in Hl; simplify_eq; cbn; lia.
  - repeat (econstructor; [reflexivity|]). constructor.
Defined.

(** ** [enter_object] *)

(** X13: on a walker that holds an object, [enter_object] returns a fresh
    [ObjectWalker] on the same object, with no key referenced yet and the
    walker as parent, and changes nothing else; the [ObjectWalker] adds
    nothing to the path, so an error on it has the text of the same error
    on the walker it was entered from.  On any other walker it raises,
    "Mandatory key is missing" when the walker is missing and "Expected an object"
    otherwise, and the store stays as it was.  The assertion of
    [ObjectWalker.__init__] never fails there. *)
Theorem enter_object_enters unicode_isalnum h self w :
  h !! self = Some w →
  (∀ attrs, obj w = VDict attrs →
     let h' := h ++ [mk_walker (ObjectWalker ∅) (VDict attrs) (Some self) ""] in
     enter_object self h = (h', Return (List.length h))
     ∧ ∀ msg, wf_heap h →
         __str__ unicode_isalnum h' (WalkerError (List.length h) msg)
         = __str__ unicode_isalnum h (WalkerError self msg))
  ∧ (isinstance (obj w) Tdict = false →
     enter_object self h
     = (h, Raise (WalkerError self
                    (if isinstance (obj w) TMissingValue
                     then "Mandatory key is missing" else "Expected an object"))))
  ∧ (∀ h', enter_object self h ≠ (h', Raise AssertionError)).
Proof.
  intros Hw.
  assert (Hrun : enter_object self h
    = match obj w with
      | VDict attrs =>
          (h ++ [mk_walker (ObjectWalker ∅) (VDict attrs) (Some self) ""],
           Return (List.length h))
      | MissingValue => (h, Raise (WalkerError self "Mandatory key is missing"))
      | _ => (h, Raise (WalkerError self "Expected an object"))
      end).
  { unfold enter_object, mbind, M_bind, bind.
    rewrite (as_type_run h self w) by done. unfold extraction_contract.
    by destruct (obj w). }
  rewrite Hrun. split_and!.
  - intros attrs Hobj. rewrite Hobj. cbv zeta. split; [done|].
    intros msg Hwf.
    destruct (chain_exists h Hwf self w Hw) as [ws Hch].
    rewrite (str_of_fresh_child unicode_isalnum h self _ (w :: ws)) by done.
    by rewrite (WalkerError_str_run unicode_isalnum h self (w :: ws)).
  - intros Hdict. by destruct (obj w).
  - intros h'. by destruct (obj w).
Qed.

Lemma enter_object_enters_witness :
  let root := mk_walker Walker (VDict [("a", VInt 1)]) None "" in
  let entered := mk_walker (ObjectWalker ∅) (VDict [("a", VInt 1)]) (Some 0%nat) "" in
  enter_object 0%nat [root] = ([root; entered], Return 1%nat)
  ∧ __str__ latin1_isalnum [root; entered] (WalkerError 1%nat "Unexpected")
    = __str__ latin1_isalnum [root] (WalkerError 0%nat "Unexpected").
Proof.
  intros root entered.
  destruct (enter_object_enters latin1_isalnum [root] 0%nat root eq_refl)
    as (Hdict & _).
  destruct (Hdict [("a", VInt 1)] eq_refl) as [Hrun Htext].
  split; [exact Hrun|]. apply Htext.
  intros [|l] w' Hl; cbn in Hl; simplify_eq; cbn; lia.
Defined.

(** ** Keys looked up and keys left over *)

Lemma set_class_class w : set_class w (class_of w) = w.
Proof. by destruct w. Qed.

Lemma getitem_run h self w referenced_keys attrs key :
  h !! self = Some w →
  class_of w = ObjectWalker referenced_keys →
  obj w = VDict attrs →
  __getitem__ self key h
  = ((if dict_contains attrs key
      then <[self := set_class w (ObjectWalker ({[key]} ∪ referenced_keys))]> h
      else h)
     ++ [mk_walker (WalkerInObject key)
           (default MissingValue (dict_get attrs key)) (Some self) ""],
     Return (List.length h)).
Proof.
  intros Hw Hc Ho. unfold __getitem__, mbind, M_bind, bind.
  rewrite (deref_object_run h self w referenced_keys attrs) by done.
  destruct (dict_contains attrs key) eqn:Hin.
  - pose proof Hin as [v Hv]%dict_contains_get.
    unfold store, dict_getitem, WalkerInObject_init, alloc.
    rewrite Hv. unfold ret. by rewrite length_insert.
  - assert (dict_get attrs key = None) as ->; [|done].
    destruct (dict_get attrs key) eqn:Hv; [|done].
    assert (dict_contains attrs key = true) by (apply dict_contains_get; eauto).
    congruence.
Qed.

Lemma getitems_run self attrs keys :
  ∀ h w referenced_keys,
  h !! self = Some w →
  class_of w = ObjectWalker referenced_keys →
  obj w = VDict attrs →
  ∃ h' referenced_keys',
    getitems self keys h = (h', Return tt)
    ∧ h' !! self = Some (set_class w (ObjectWalker referenced_keys'))
    ∧ (∀ k, k ∈ referenced_keys'
            ↔ k ∈ referenced_keys ∨ (k ∈ keys ∧ dict_contains attrs k = true))
    ∧ List.length h' = (List.length h + List.length keys)%nat.
Proof.
  induction keys as [|key keys IH]; intros h w referenced_keys Hw Hc Ho.
  - exists h, referenced_keys. split_and!; [done| | |cbn; lia].
    + by rewrite <- Hc, set_class_class.
    + intros k. split; [by left|].
      intros [?|[Hin _]]; [done | by apply elem_of_nil in Hin].
  - cbn [getitems]. unfold mbind, M_bind, bind.
    rewrite (getitem_run h self w referenced_keys attrs) by done.
    assert (self < List.length h)%nat as Hself by by eapply lookup_lt_Some.
    set (rk1 := if dict_contains attrs key then {[key]} ∪ referenced_keys
                else referenced_keys).
    set (h1 := (if dict_contains attrs key
                then <[self := set_class w (ObjectWalker ({[key]} ∪ referenced_keys))]> h
                else h) ++ _).
    assert (h1 !! self = Some (set_class w (ObjectWalker rk1))) as Hw1.
    { subst h1 rk1. destruct (dict_contains attrs key).
      - rewrite lookup_app_l by (by rewrite length_insert).
        by apply list_lookup_insert_eq.
      - rewrite lookup_app_l by done. by rewrite <- Hc, set_class_class. }
    assert (List.length h1 = S (List.length h)) as Hlen1.
    { subst h1. rewrite length_app. cbn.
      destruct (dict_contains attrs key); rewrite ?length_insert; lia. }
    destruct (IH h1 (set_class w (ObjectWalker rk1)) rk1 Hw1 eq_refl Ho)
      as (h' & rk' & Hrun & Hw' & Hrk' & Hlen').
    exists h', rk'. split_and!; [done..| |cbn; lia].
    intros k. rewrite Hrk'. subst rk1.
    rewrite elem_of_cons.
    destruct (dict_contains attrs key) eqn:Hin.
    + rewrite elem_of_union, elem_of_singleton.
      split; [|tauto]. intros [[->|?]|[? ?]]; auto.
    + split; [tauto|]. intros [?|[[->|?] ?]]; [auto | congruence | auto].
Qed.

(** X14: the keys an [ObjectWalker] remembers.  After it has been indexed
    with a list of keys, in any order and any number of times, its
    [referenced_keys] are those it had and the keys of the list that the
    object has, its object is the same, and leaving its scope with no
    exception on the way raises nothing exactly when every key of the
    object was referenced before or is in the list.  Indexing never
    raises. *)
Theorem lookups_then_exit h self w referenced_keys attrs keys :
  h !! self = Some w →
  class_of w = ObjectWalker referenced_keys →
  obj w = VDict attrs →
  ∃ h' referenced_keys',
    getitems self keys h = (h', Return tt)
    ∧ h' !! self = Some (set_class w (ObjectWalker referenced_keys'))
    ∧ (∀ k, k ∈ referenced_keys'
            ↔ k ∈ referenced_keys ∨ (k ∈ keys ∧ ∃ val, (k, val) ∈ attrs))
    ∧ (__exit__ self None h' = (h', Return tt)
       ↔ ∀ key val, (key, val) ∈ attrs → key ∈ referenced_keys ∨ key ∈ keys).
Proof.
  intros Hw Hc Ho.
  destruct (getitems_run self attrs keys h w referenced_keys Hw Hc Ho)
    as (h' & rk' & Hrun & Hw' & Hrk' & _).
  exists h', rk'. split_and!; [done..| |].
  - intros k. rewrite Hrk'. by rewrite dict_contains_elem_of.
  - cbn [__exit__]. unfold assert_no_other_keys, mbind, M_bind, bind.
    rewrite (deref_object_run h' self _ rk' attrs) by done.
    rewrite unreferenced_run.
    destruct (first_unreferenced rk' attrs) as [[key val]|] eqn:Hfirst.
    + split; [done|]. intros Hall. exfalso.
      apply first_unreferenced_Some in Hfirst
        as (before & after & -> & Hnot & _).
      apply Hnot, Hrk'.
      assert ((key, val) ∈ before ++ (key, val) :: after) as Hin
        by (apply elem_of_app; right; left).
      destruct (Hall key val Hin) as [?|?]; [by left|].
      right. split; [done|]. apply dict_contains_elem_of. by exists val.
    + split; [|done]. intros _ key val Hin.
      pose proof (proj1 (first_unreferenced_None rk' attrs) Hfirst key val Hin)
        as Hk.
      apply Hrk' in Hk. tauto.
Qed.

Lemma lookups_then_exit_witness :
  let root := mk_walker Walker one_two_three None "" in
  let w := mk_walker (ObjectWalker ∅) one_two_three (Some 0%nat) "" in
  ∃ h', getitems 1%nat ["three"; "four"; "one"; "two"; "one"] [root; w]
        = (h', Return tt)
        ∧ __exit__ 1%nat None h' = (h', Return tt).
Proof.
  intros root w.
  destruct (lookups_then_exit [root; w] 1%nat w ∅
              [("one", VInt 1); ("two", VStr "dva"); ("three", VBool false)]
              ["three"; "four"; "one"; "two"; "one"] eq_refl eq_refl eq_refl)
    as (h' & rk' & Hrun & _ & _ & Hexit).
  exists h'. split; [exact Hrun|]. apply Hexit.
  intros key val Hin. right.
  apply list_elem_of_In in Hin. cbn in Hin.
  destruct Hin as [[= <- <-]|[[= <- <-]|[[= <- <-]|[]]]];
    apply list_elem_of_In; cbn; tauto.
Defined.

(** X15: the membership test [key in w] of an [ObjectWalker] is true
    exactly when the object has an attribute with the key, and it only
    tests: the store stays as it was, so a key that was tested and not
    indexed is still unreferenced when the scope is left.  When the test is
    false, indexing with the key gives a walker that is missing. *)
Theorem contains_only_tests h self w referenced_keys attrs key :
  h !! self = Some w →
  class_of w = ObjectWalker referenced_keys →
  obj w = VDict attrs →
  ∃ found : bool,
    __contains__ self key h = (h, Return found)
    ∧ (found = true ↔ ∃ val, (key, val) ∈ attrs)
    ∧ (__contains__ self key;; __exit__ self None) h = __exit__ self None h
    ∧ (found = false →
       ∃ h', (c ← __getitem__ self key; is_missing c) h = (h', Return true)).
Proof.
  intros Hw Hc Ho. exists (dict_contains attrs key).
  assert (Hrun : __contains__ self key h = (h, Return (dict_contains attrs key))).
  { unfold __contains__, mbind, M_bind, bind.
    by rewrite (deref_object_run h self w referenced_keys attrs). }
  split_and!.
  - done.
  - apply dict_contains_elem_of.
  - unfold mbind, M_bind, bind. by rewrite Hrun.
  - intros Hnot. eexists. unfold mbind, M_bind, bind.
    rewrite (getitem_run h self w referenced_keys attrs) by done.
    rewrite Hnot.
    assert (dict_get attrs key = None) as ->.
    { destruct (dict_get attrs key) eqn:Hv; [|done].
      assert (dict_contains attrs key = true) by (apply dict_contains_get; eauto).
      congruence. }
    unfold is_missing, mbind, M_bind, bind, deref.
    by rewrite lookup_app_r, Nat.sub_diag.
Qed.

Lemma contains_only_tests_witness :
  let root := mk_walker Walker one_two_three None "" in
  let w := mk_walker (ObjectWalker ∅) one_two_three (Some 0%nat) "" in
  ∃ found : bool,
    __contains__ 1%nat "four" [root; w] = ([root; w], Return found)
    ∧ (found = true ↔ ∃ val, ("four", val) ∈
         [("one", VInt 1); ("two", VStr "dva"); ("three", VBool false)]).
Proof.
  intros root w.
  destruct (contains_only_tests [root; w] 1%nat w ∅
              [("one", VInt 1); ("two", VStr "dva"); ("three", VBool false)]
              "four" eq_refl eq_refl eq_refl) as (found & Hrun & Hiff & _).
  by exists found.
Defined.

(** ** [default_to], then a loop *)

(** X16: the chain of the docstring, [w.default_to(d).array_values()].  On
    a missing walker the loop runs over the elements of the default, and
    over nothing when the default is the empty array, where the loop alone
    raises "Mandatory key is missing"; on a walker that holds an array the
    default is not looked at and the loop runs over the array. *)
Theorem default_to_then_array_values h self w default body :
  h !! self = Some w →
  (obj w = MissingValue →
     array_values self body h
     = (h, Raise (WalkerError self "Mandatory key is missing"))
     ∧ (∀ elements, default = VList elements →
          (s ← default_to self default; array_values s body) h
          = enumerate self 0 elements body (<[self := set_obj w default]> h))
     ∧ (default = VList [] →
          (s ← default_to self default; array_values s body) h
          = (<[self := set_obj w default]> h, Return tt)))
  ∧ (∀ elements, obj w = VList elements →
       (s ← default_to self default; array_values s body) h
       = array_values self body h).
Proof.
  intros Hw. split.
  - intros Hobj.
    assert (Hto : default_to self default h
      = (<[self := set_obj w default]> h, Return self))
      by (apply default_to_missing; [done | by rewrite Hobj]).
    assert (Hw' : <[self := set_obj w default]> h !! self
      = Some (set_obj w default)).
    { apply list_lookup_insert_eq. by eapply lookup_lt_Some. }
    split_and!.
    + rewrite (array_values_run h self w) by done. by rewrite Hobj.
    + intros elements ->. unfold mbind, M_bind, bind. rewrite Hto.
      by rewrite (array_values_run _ self (set_obj w (VList elements))).
    + intros ->. unfold mbind, M_bind, bind. rewrite Hto.
      by rewrite (array_values_run _ self (set_obj w (VList []))).
  - intros elements Hobj. unfold mbind, M_bind, bind.
    by rewrite (default_to_present h self w) by (done || by rewrite Hobj).
Qed.

Lemma default_to_then_array_values_witness :
  let h := [mk_walker Walker MissingValue None ""] in
  (s ← default_to 0%nat (VList []); array_values s pass) h
  = ([mk_walker Walker (VList []) None ""], Return tt)
  ∧ array_values 0%nat pass h
    = (h, Raise (WalkerError 0%nat "Mandatory key is missing")).
Proof.
  intros h.
  destruct (default_to_then_array_values h 0%nat
              (mk_walker Walker MissingValue None "") (VList []) pass eq_refl)
    as [Hmissing _].
  destruct (Hmissing eq_refl) as (Halone & _ & Hempty).
  exact (conj (Hempty eq_refl) Halone).
Defined.

(** ** [set_custom_context] *)

(** X17: [set_custom_context] changes the annotation of the walker and
    nothing else of the store: what the walker holds, and so what every
    extraction on it gives, stays; a second call replaces the annotation of
    the first.  In the text of an error on the walker the annotation stands
    between the path of the parent and the fragment of the walker. *)
Theorem set_custom_context_text unicode_isalnum h self w ws ctx :
  wf_heap h →
  chain h (Some self) (w :: ws) →
  let h' := <[self := set_ctx w ctx]> h in
  set_custom_context self ctx h = (h', Return tt)
  ∧ (∀ ctx0,
       (set_custom_context self ctx0;; set_custom_context self ctx) h
       = (h', Return tt))
  ∧ (∀ typ msg default,
       as_type self typ msg default h'
       = (h', (as_type self typ msg default h).2))
  ∧ (∀ msg,
       __str__ unicode_isalnum h' (WalkerError self msg)
       = Some (code_path unicode_isalnum ws +:+ ctx
               +:+ context unicode_isalnum w +:+ ": " +:+ msg)).
Proof.
  intros Hwf Hch h'. inversion Hch as [|? ? ? Hw Hparents]; subst.
  assert (self < List.length h)%nat as Hself by by eapply lookup_lt_Some.
  assert (Hset : ∀ h0 w0 c, h0 !! self = Some w0 →
    set_custom_context self c h0 = (<[self := set_ctx w0 c]> h0, Return tt)).
  { intros h0 w0 c Hw0.
    unfold set_custom_context, mbind, M_bind, bind, deref, store.
    by rewrite Hw0. }
  assert (Hw' : h' !! self = Some (set_ctx w ctx))
    by (by apply list_lookup_insert_eq).
  split_and!.
  - by apply Hset.
  - intros ctx0. unfold mbind, M_bind, bind.
    rewrite (Hset h w ctx0 Hw).
    rewrite (Hset _ (set_ctx w ctx0) ctx) by (by apply list_lookup_insert_eq).
    subst h'. by rewrite list_insert_insert_eq.
  - intros typ msg default.
    by rewrite (as_type_run h' self (set_ctx w ctx)),
      (as_type_run h self w).
  - intros msg.
    rewrite (WalkerError_str_run unicode_isalnum h' self (set_ctx w ctx :: ws)).
    + unfold code_rendering, code_path.
      rewrite reverse_cons, fmap_app, concat_app. cbn [fmap list_fmap].
      rewrite concat_cons. cbn [String.concat custom_context set_ctx].
      by rewrite append_nil_r, !append_assoc.
    + by eapply wf_heap_insert.
    + econstructor; [done|]. cbn [parent set_ctx].
      apply chain_insert_other; [done| |done].
      intros p Hp. specialize (Hwf self w Hw). unfold wf_walker in Hwf.
      by rewrite Hp in Hwf.
Qed.

Lemma set_custom_context_text_witness :
  let root := mk_walker Walker (VDict [("a", VInt 1)]) None "" in
  let w := mk_walker (ObjectWalker ∅) (VDict [("a", VInt 1)]) (Some 0%nat) "" in
  let a := mk_walker (WalkerInObject "a") (VInt 1) (Some 1%nat) "" in
  __str__ latin1_isalnum [root; w; set_ctx a " in the file "]
    (WalkerError 2%nat "Expected a string")
  = Some "root in the file .a: Expected a string".
Proof.
  intros root w a.
  assert (wf_heap [root; w; a]) as Hwf.
  { intros [|[|[|l]]] w' Hl; cbn in Hl; simplify_eq; cbn; lia. }
  assert (chain [root; w; a] (Some 2%nat) [a; w; root]) as Hch.
  { repeat (econstructor; [reflexivity|]). constructor. }
  destruct (set_custom_context_text latin1_isalnum [root; w; a] 2%nat a
              [w; root] " in the file " Hwf Hch) as (_ & _ & _ & Htext).
  exact (Htext "Expected a string").
Defined.

(** ** Fragments and places *)

Lemma length_append (s t : string) :
  String.length (s +:+ t) = (String.length s + String.length t)%nat.
Proof.
  induction s as [|c s IH]; [done|].
  change (S (String.length (s +:+ t)) = S (String.length s + String.length t)).
  by rewrite IH.
Qed.

Lemma append_cancel_r (s1 s2 t : string) : s1 +:+ t = s2 +:+ t → s1 = s2.
Proof.
  revert s2. induction s1 as [|c s1 IH]; intros [|d s2] Heq; [done| | |].
  - apply (f_equal String.length) in Heq.
    change (String.length t = S (String.length (s2 +:+ t))) in Heq.
    rewrite length_append in Heq. lia.
  - apply (f_equal String.length) in Heq.
    change (S (String.length (s1 +:+ t)) = String.length t) in Heq.
    rewrite length_append in Heq. lia.
  - change (String c (s1 +:+ t) = String d (s2 +:+ t)) in Heq.
    injection Heq as -> Heq. f_equal. by apply IH.
Qed.

(** Quoting loses nothing: the key can be read back. *)
Lemma unescape_escaped key : unescape (escaped key) = key.
Proof.
  induction key as [|c key IH]; [done|]. cbn [escaped].
  destruct (decide (c = backslash ∨ c = dquote)) as [Hc|Hc].
  - cbn [unescape]. rewrite decide_True by done. by rewrite IH.
  - cbn [unescape]. rewrite decide_False by tauto. by rewrite IH.
Qed.

Lemma is_word_dquote unicode_isalnum : is_word unicode_isalnum dquote = false.
Proof. reflexivity. Qed.

Lemma WalkerInObject_context_dot unicode_isalnum key :
  ∃ rest, WalkerInObject_context unicode_isalnum key = String "." rest.
Proof.
  unfold WalkerInObject_context.
  destruct (fullmatch (word_plus unicode_isalnum) key); eexists; reflexivity.
Qed.

Lemma WalkerInObject_context_inj unicode_isalnum k1 k2 :
  WalkerInObject_context unicode_isalnum k1
  = WalkerInObject_context unicode_isalnum k2 → k1 = k2.
Proof.
  assert (Hmixed : ∀ k k',
    fullmatch (word_plus unicode_isalnum) k = true →
    "." +:+ k ≠ "." +:+ String dquote k').
  { intros k k' Hk%fullmatch_word_plus Heq.
    change (String "." k = String "." (String dquote k')) in Heq.
    injection Heq as ->. destruct Hk as [_ Hk].
    specialize (Hk dquote ltac:(left)).
    by rewrite is_word_dquote in Hk. }
  unfold WalkerInObject_context.
  destruct (fullmatch (word_plus unicode_isalnum) k1) eqn:H1,
    (fullmatch (word_plus unicode_isalnum) k2) eqn:H2; intros Heq.
  - change (String "." k1 = String "." k2) in Heq. by injection Heq.
  - by apply Hmixed in Heq.
  - symmetry in Heq. by apply Hmixed in Heq.
  - rewrite !sub_escaped in Heq.
    change (String "." (String dquote (escaped k1 +:+ String dquote EmptyString))
            = String "." (String dquote (escaped k2 +:+ String dquote EmptyString)))
      in Heq.
    injection Heq as Heq. apply append_cancel_r in Heq.
    by rewrite <- (unescape_escaped k1), <- (unescape_escaped k2), Heq.
Qed.

(** X18: the fragment of a walker tells its place.  Two walkers with the
    same fragment are of the same class and, in an array, have the same
    index and, in an object, the same key: no two keys have the same
    fragment, quoted or not, and no key has the fragment of an index or of
    the root. *)
Theorem fragments_tell_places unicode_isalnum (w1 w2 : walker) :
  context unicode_isalnum w1 = context unicode_isalnum w2 →
  same_place (class_of w1) (class_of w2).
Proof.
  unfold context.
  destruct (class_of w1) as [|i|k1|rk1], (class_of w2) as [|j|k2|rk2];
    cbn [same_place]; try done;
    unfold Walker_context, WalkerInArray_context, ObjectWalker_context;
    intros Heq;
    try (by destruct (WalkerInObject_context_dot unicode_isalnum k1) as [r Hr];
         rewrite Hr in Heq);
    try (by destruct (WalkerInObject_context_dot unicode_isalnum k2) as [r Hr];
         rewrite Hr in Heq).
  - change (String "[" (pretty i +:+ "]") = String "[" (pretty j +:+ "]")) in Heq.
    injection Heq as Heq. apply append_cancel_r in Heq.
    by apply (inj pretty) in Heq.
  - by apply WalkerInObject_context_inj in Heq.
Qed.

Lemma fragments_tell_places_witness :
  same_place (WalkerInObject "odd key") (WalkerInObject "odd key")
  ∧ context latin1_isalnum (mk_walker (WalkerInObject "odd key") VNone None "")
    ≠ context latin1_isalnum (mk_walker (WalkerInObject "odd_key") VNone None "").
Proof.
  split.
  - exact (fragments_tell_places latin1_isalnum
             (mk_walker (WalkerInObject "odd key") VNone None "")
             (mk_walker (WalkerInObject "odd key") (VInt 1) (Some 0%nat) "")
             eq_refl).
  - intros Heq.
    pose proof (fragments_tell_places latin1_isalnum _ _ Heq) as Hsame.
    cbn in Hsame. discriminate.
Defined.
